(** * Client-side simulation core of the agar-style game

    A shallow embedding of [src/player.ts] (class [Player]) and of the game
    loop registered with [app.ticker.add] in the entry module, with its
    helpers [lerp], [drawStar] and [generateStars], followed by the
    properties of growth, collision, movement, camera smoothing and of the
    background stars.

    Number model.  A JavaScript [number] is modelled as a real number of the
    Standard Library ([R]): [Math.sqrt] is [sqrt], [Math.log] is [ln],
    [Math.min]/[Math.max] are [Rmin]/[Rmax] and [Math.floor] is [Zfloor].
    Rounding is outside this model.  The zoom of the camera, where the
    source divides by zero at radius 1 and at radius 80, is computed on the
    reals extended with the infinities and [NaN] ([Extended]).  Elsewhere
    [NaN] and the infinities have no counterpart: [moveTowards] divides by
    [Math.sqrt(radius / 20)] and by [maxDistance], and its embedding is the
    source for a positive radius and a viewport that is not a single point;
    the statements on a move that depend on these divisions carry the
    hypotheses that exclude a zero divisor.

    Rendering ([draw], [clear], [circle], [fill], [stroke]) and [console.log]
    do not touch the simulated state and are left out. *)

From Stdlib Require Import Reals Lra Lia ZArith List Bool Zfloor.
From Stdlib Require Import Init.Byte.
From Stdlib Require Import Permutation.
Import ListNotations.

Open Scope R_scope.

(** ** Numbers and comparisons *)

(** [a <= b] of JavaScript, as a boolean. *)
Definition leb (a b : R) : bool := if Rle_dec a b then true else false.

(** [a < b] of JavaScript, as a boolean. *)
Definition ltb (a b : R) : bool := if Rlt_dec a b then true else false.

(** ** Data model *)

(** [{ x: number, y: number }]. *)
Record Point : Type := mkPoint { x : R; y : R }.

(** [WorldBounds], the argument of the [Player] constructor
    ([WORLD_SIZE = { width: 10000, height: 10000 }] in the entry module). *)
Record WorldBounds : Type := mkWorldBounds { width : R; height : R }.

(** The part of pixi's [Rectangle] that the code reads ([app.screen]). *)
Module Rectangle.
Record t : Type := mk { width : R; height : R }.
End Rectangle.

(** [Food] (declared in [./food], which exports [FOOD_RADIUS] too): the code
    here reads [pos] and [destroyed] and calls [destroy]. *)
Module Food.
Record t : Type := mk { pos : Point; destroyed : bool }.

(** pixi's [destroy()]: the object is flagged destroyed; calling it again
    changes nothing. *)
Definition destroy (f : t) : t := mk (pos f) true.
End Food.

(** [Bot] (declared in [./bot]): [pos], [radius], [destroyed], [destroy]. *)
Module Bot.
Record t : Type := mk { pos : Point; radius : R; destroyed : bool }.

Definition destroy (b : t) : t := mk (pos b) (radius b) true.
End Bot.

(** ** class Player *)

Module Player.

(** The fields of the class.  [id] is the identity the game loop reads
    ([p.id !== undefined], a [Uint8Array] when defined); [destroyed] is
    inherited from pixi's [Graphics]. *)
Record t : Type := mk {
  id : option (list byte);
  baseRadius : R;
  radius : R;
  color : Z;
  pos : Point;
  worldBounds : WorldBounds;
  destroyed : bool
}.

(** [private velocityMagnitude = 10]; never reassigned. *)
Definition velocityMagnitude : R := 10.

(** The constructor: [baseRadius] and [radius] both start at [radius]. *)
Definition new (worldBounds : WorldBounds) (ident : option (list byte))
    (x y radius : R) (color : Z) : t :=
  mk ident radius radius color (mkPoint x y) worldBounds false.

Definition set_radius (this : t) (r : R) : t :=
  mk (id this) (baseRadius this) r (color this) (pos this)
     (worldBounds this) (destroyed this).

Definition set_pos (this : t) (p : Point) : t :=
  mk (id this) (baseRadius this) (radius this) (color this) p
     (worldBounds this) (destroyed this).

Definition destroy (this : t) : t :=
  mk (id this) (baseRadius this) (radius this) (color this) (pos this)
     (worldBounds this) true.

(** [eatPlayer(playerEaten)]: the new consumer and the consumed player. *)
Definition eatPlayer (this playerEaten : t) : t * t :=
  (set_radius this
     (sqrt (radius this * radius this
            + radius playerEaten * radius playerEaten)),
   destroy playerEaten).

Section WithFoodRadius.

(** [FOOD_RADIUS], imported from [./food]. *)
Variable FOOD_RADIUS : R.

(** [eatFood(foodEaten)]. *)
Definition eatFood (this : t) (foodEaten : Food.t) : t * Food.t :=
  (set_radius this
     (sqrt (radius this * radius this + FOOD_RADIUS * FOOD_RADIUS)
      * 1.002),
   Food.destroy foodEaten).

End WithFoodRadius.

(** [canEatFood(food)]. *)
Definition canEatFood (this : t) (food : Food.t) : bool :=
  if Food.destroyed food then false
  else
    let playerCenterX := x (pos this) in
    let playerCenterY := y (pos this) in
    let foodCenterX := x (Food.pos food) in
    let foodCenterY := y (Food.pos food) in
    let dx := foodCenterX - playerCenterX in
    let dy := foodCenterY - playerCenterY in
    let distanceSquared := dx * dx + dy * dy in
    let radiusSquared := radius this * radius this in
    leb distanceSquared radiusSquared.

(** [eatBot(botEaten)]. *)
Definition eatBot (this : t) (botEaten : Bot.t) : t * Bot.t :=
  (set_radius this
     (sqrt (radius this * radius this
            + Bot.radius botEaten * Bot.radius botEaten)
      * 1.002),
   Bot.destroy botEaten).

(** [canEatBot(bot)]. *)
Definition canEatBot (this : t) (bot : Bot.t) : bool :=
  if Bot.destroyed bot then false
  else
    let playerCenterX := x (pos this) in
    let playerCenterY := y (pos this) in
    let foodCenterX := x (Bot.pos bot) in
    let foodCenterY := y (Bot.pos bot) in
    let dx := foodCenterX - playerCenterX in
    let dy := foodCenterY - playerCenterY in
    let distanceSquared := dx * dx + dy * dy in
    let radiusSquared := radius this * radius this in
    leb distanceSquared radiusSquared.

(** [calculateMaxDistance(screen)]. *)
Definition calculateMaxDistance (screen : Rectangle.t) : R :=
  sqrt ((Rectangle.width screen / 2) * (Rectangle.width screen / 2)
        + (Rectangle.height screen / 2) * (Rectangle.height screen / 2)).

(** [moveTowards(screen, x, y)]. *)
Definition moveTowards (this : t) (screen : Rectangle.t) (x0 y0 : R) : t :=
  let dx := x0 - Rectangle.width screen / 2 in
  let dy := y0 - Rectangle.height screen / 2 in
  let delta := sqrt (dx * dx + dy * dy) in
  let maxDistance := calculateMaxDistance screen in
  let normalizedDistance := Rmin ((delta / maxDistance) * 2) 1 in
  let velocity :=
    (normalizedDistance * velocityMagnitude) / sqrt (radius this / 20) in
  if ltb 3 delta then
    let px := x (pos this) + (dx / delta) * velocity in
    let py := y (pos this) + (dy / delta) * velocity in
    let px := Rmax 0 (Rmin px (width (worldBounds this))) in
    let py := Rmax 0 (Rmin py (height (worldBounds this))) in
    set_pos this (mkPoint px py)
  else this.

End Player.

(** ** The network collaborator *)

(** A call made on the network collaborator by the game loop. *)
Inductive Message : Type :=
| SendMovement (x y : R)
| SendEatFood (X Y : Z) (radius : Z)
| SendEatPlayer (id : list byte) (radius : R).

(** Modelled from the spec: [NetworkManager] is imported from
    [../websockets/NetworkManager], which is not among the sources.  Section 6
    of the specification gives its interface: [isConnected], the readable
    collections [foods] and [players], and the [send...] intents, each of
    which is recorded here in [sent], in the order of the calls. *)
Module NetworkManager.
Record t : Type := mk {
  connected : bool;
  foods : list Food.t;
  players : list Player.t;
  sent : list Message
}.

Definition isConnected (n : t) : bool := connected n.
End NetworkManager.

(** pixi's [Container] [world]: the two fields the camera code writes. *)
Module Container.
Record t : Type := mk { scale : Point; position : Point }.
End Container.

(** What the game loop's closure captures. *)
Record Game : Type := mkGame {
  player : Player.t;
  network : NetworkManager.t;
  world : Container.t
}.

(** ** The game loop *)

(** [lerp(start, end, t)]. *)
Definition lerp (start end_ t : R) : R := start * (1 - t) + end_ * t.

(** A value of the zoom computation: IEEE-754 arithmetic leaves the real
    numbers where it divides by zero or takes the logarithm of a number that
    is not positive, and the clamping brings [+Infinity] back to a number. *)
Inductive Extended : Type :=
| Real (r : R)
| PlusInfinity
| MinusInfinity
| NaN.

(** [Math.log(r)]: [NaN] below zero and [-Infinity] at zero. *)
Definition Math_log (r : R) : Extended :=
  if ltb r 0 then NaN
  else if Req_dec_T r 0 then MinusInfinity
  else Real (ln r).

(** [a / e].  A zero divisor is a positive zero here ([Math.log(1)] and
    [80 - 80]), so that the sign of the quotient is the sign of [a]. *)
Definition divide (a : R) (e : Extended) : Extended :=
  match e with
  | Real b =>
      if Req_dec_T b 0 then
        if ltb 0 a then PlusInfinity
        else if ltb a 0 then MinusInfinity
        else NaN
      else Real (a / b)
  | PlusInfinity | MinusInfinity => Real 0
  | NaN => NaN
  end.

(** [Math.min(a, e)]. *)
Definition Math_min (a : R) (e : Extended) : Extended :=
  match e with
  | Real b => Real (Rmin a b)
  | PlusInfinity => Real a
  | MinusInfinity => MinusInfinity
  | NaN => NaN
  end.

(** [Math.max(a, e)]. *)
Definition Math_max (a : R) (e : Extended) : Extended :=
  match e with
  | Real b => Real (Rmax a b)
  | PlusInfinity => PlusInfinity
  | MinusInfinity => Real a
  | NaN => NaN
  end.

(** The local variable [zoom] of the loop, as a function of
    [player.radius]. *)
Definition zoom (radius : R) : Extended :=
  if ltb radius 80 then Math_max 0.1 (Math_min 1 (divide 50 (Math_log radius)))
  else Math_max 0.1 (Math_min 1 (divide 100 (Real (radius - 80)))).

(** The number that an [Extended] is; 0 stands in for the three values that
    are no real number. *)
Definition toReal (e : Extended) : R :=
  match e with
  | Real r => r
  | PlusInfinity | MinusInfinity | NaN => 0
  end.

(** [zoom] as the number handed to [lerp].  For a negative radius [zoom] is
    [NaN]: the statements on the camera assume a radius that is not
    negative. *)
Definition targetZoom (radius : R) : R := toReal (zoom radius).

(** What a [forEach] callback of the loop can change besides the element it
    visits: the local player and the calls received by the network. *)
Definition Loop : Type := (Player.t * list Message)%type.

(** [collection.forEach(body)], where [body] may mutate the visited element
    and the captured state. *)
Fixpoint forEach {A : Type} (body : Loop -> A -> Loop * A) (s : Loop)
    (l : list A) : Loop * list A :=
  match l with
  | [] => (s, [])
  | a :: l' =>
      let '(s1, a1) := body s a in
      let '(s2, l1) := forEach body s1 l' in
      (s2, a1 :: l1)
  end.

Section GameLoop.

(** [FOOD_RADIUS], imported by [player.ts] from [./food]. *)
Variable FOOD_RADIUS : R.

(** [Player.canEatPlayer], which the loop calls and [player.ts] does not
    declare; a predicate without side effects, like its two siblings. *)
Variable canEatPlayer : Player.t -> Player.t -> bool.

(** The callback of [network.foods.forEach]. *)
Definition visitFood (s : Loop) (f : Food.t) : Loop * Food.t :=
  let '(player, sent) := s in
  if Player.canEatFood player f then
    let '(player, f) := Player.eatFood FOOD_RADIUS player f in
    ((player,
      sent ++ [SendEatFood (Zfloor (x (Food.pos f))) (Zfloor (y (Food.pos f)))
                           (Zfloor (Player.radius player))]),
     f)
  else (s, f).

(** The callback of [network.players.forEach]. *)
Definition visitPlayer (s : Loop) (p : Player.t) : Loop * Player.t :=
  let '(player, sent) := s in
  if canEatPlayer player p then
    let '(s, p) :=
      match Player.id p with
      | Some id =>
          let sent := sent ++ [SendEatPlayer id (Player.radius player)] in
          let '(player, p) := Player.eatPlayer player p in
          ((player, sent), p)
      | None => (s, p)
      end in
    (s, Player.destroy p)
  else (s, p).

(** The callback registered with [app.ticker.add]; [screen] is
    [app.screen] and [pointer] is [app.renderer.events.pointer]. *)
Definition tick (screen : Rectangle.t) (pointer : Point) (g : Game) : Game :=
  let net := network g in
  let s :=
    if NetworkManager.isConnected net then
      let player := Player.moveTowards (player g) screen (x pointer) (y pointer) in
      (player,
       NetworkManager.sent net
         ++ [SendMovement (x (Player.pos player)) (y (Player.pos player))])
    else (player g, NetworkManager.sent net) in
  let '(s, foods) := forEach visitFood s (NetworkManager.foods net) in
  let '(s, players) := forEach visitPlayer s (NetworkManager.players net) in
  let '(player, sent) := s in
  let zoom := targetZoom (Player.radius player) in
  let scale :=
    mkPoint (lerp (x (Container.scale (world g))) zoom 0.05)
            (lerp (y (Container.scale (world g))) zoom 0.05) in
  let position :=
    mkPoint
      (lerp (x (Container.position (world g)))
            (Rectangle.width screen / 2 - x (Player.pos player) * x scale) 0.05)
      (lerp (y (Container.position (world g)))
            (Rectangle.height screen / 2 - y (Player.pos player) * y scale) 0.05) in
  mkGame player
         (NetworkManager.mk (NetworkManager.connected net) foods players sent)
         (Container.mk scale position).

End GameLoop.

(** Modelled from the spec: [canEatPlayer] is called by the loop and missing
    from [player.ts].  Section 4.1 of the specification gives one collision
    predicate for every kind of target: false for a destroyed target,
    otherwise the squared distance between the centres compared with the
    consumer's squared radius. *)
Definition canConsume (consumer target : Player.t) : bool :=
  if Player.destroyed target then false
  else
    let dx := x (Player.pos target) - x (Player.pos consumer) in
    let dy := y (Player.pos target) - y (Player.pos consumer) in
    leb (dx * dx + dy * dy) (Player.radius consumer * Player.radius consumer).

(** ** Vocabulary of the specification *)

(** The kinds of target of section 4.2. *)
Inductive Target : Type := FoodTarget | BotTarget | PlayerTarget.

(** "A moving entity (Bot or Player)". *)
Definition moving (k : Target) : bool :=
  match k with FoodTarget => false | BotTarget | PlayerTarget => true end.

(** The growth rule in the specification's words: the area-additive radius,
    times 1.002 when the bonus applies. *)
Definition growth (bonus : bool) (r1 r2 : R) : R :=
  if bonus then sqrt (r1 * r1 + r2 * r2) * 1.002 else sqrt (r1 * r1 + r2 * r2).

(** The consumer's radius after the code consumes a target of kind [k] and
    radius [r2]; a piece of food has the radius [FOOD_RADIUS]. *)
Definition consume (k : Target) (this : Player.t) (r2 : R) : R :=
  match k with
  | FoodTarget =>
      Player.radius (fst (Player.eatFood r2 this (Food.mk (mkPoint 0 0) false)))
  | BotTarget =>
      Player.radius (fst (Player.eatBot this (Bot.mk (mkPoint 0 0) r2 false)))
  | PlayerTarget =>
      Player.radius
        (fst (Player.eatPlayer this
                (Player.new (Player.worldBounds this) None 0 0 r2 0)))
  end.

(** [clamp(v, lo, hi)] as the specification writes it. *)
Definition clamp (v lo hi : R) : R :=
  if ltb v lo then lo else if ltb hi v then hi else v.

(** [clamp] on the values of IEEE-754 arithmetic: an infinity is clamped to
    the bound on its side and [NaN] stays [NaN]. *)
Definition clampExtended (e : Extended) (lo hi : R) : Extended :=
  match e with
  | Real v => Real (clamp v lo hi)
  | PlusInfinity => Real hi
  | MinusInfinity => Real lo
  | NaN => NaN
  end.

(** A point of [[0, width] x [0, height]]. *)
Definition inBounds (b : WorldBounds) (p : Point) : Prop :=
  0 <= x p <= width b /\ 0 <= y p <= height b.

(** The pointer's distance from the centre of the viewport, [delta]. *)
Definition pointerDelta (screen : Rectangle.t) (x0 y0 : R) : R :=
  let dx := x0 - Rectangle.width screen / 2 in
  let dy := y0 - Rectangle.height screen / 2 in
  sqrt (dx * dx + dy * dy).

(** [n] camera steps towards a constant target. *)
Fixpoint smooth (n : nat) (value target : R) : R :=
  match n with
  | O => value
  | S k => lerp (smooth k value target) target 0.05
  end.

(** The messages that report a consumption. *)
Definition isEatIntent (m : Message) : bool :=
  match m with
  | SendMovement _ _ => false
  | SendEatFood _ _ _ | SendEatPlayer _ _ => true
  end.

(** What every callback of the loop preserves: the position of the local
    player, and the calls already made, to which it adds only consumption
    intents. *)
Definition extends (s s' : Loop) : Prop :=
  Player.pos (fst s') = Player.pos (fst s)
  /\ exists intents : list Message,
       snd s' = snd s ++ intents /\ forallb isEatIntent intents = true.

(** ** Sample values *)

Definition WORLD_SIZE : WorldBounds := mkWorldBounds 10000 10000.

Definition screen800 : Rectangle.t := Rectangle.mk 800 600.

(** A local player of radius [r] at [(x0, y0)]. *)
Definition playerAt (x0 y0 r : R) : Player.t :=
  Player.new WORLD_SIZE (Some ["001"%byte; "002"%byte; "003"%byte]) x0 y0 r 4504388.

Definition camera0 : Container.t := Container.mk (mkPoint 1 1) (mkPoint 0 0).

(** A disconnected client that still holds a piece of food, under the local
    player. *)
Definition offlineGame : Game :=
  mkGame (playerAt 5000 5000 3)
         (NetworkManager.mk false [Food.mk (mkPoint 5000 5000) false] [] [])
         camera0.

(** A remote player of radius 30 with an identity. *)
Definition rival : Player.t :=
  Player.new WORLD_SIZE (Some ["007"%byte]) 5000 5000 30 16711680.

(** A connected client whose player, of radius 40, covers [rival]. *)
Definition duelGame : Game :=
  mkGame (playerAt 5000 5000 40) (NetworkManager.mk true [] [rival] []) camera0.

(** ** Background stars *)

(** The calls that [drawStar] makes on a pixi [Graphics], in order. *)
Inductive PathCommand : Type :=
| BeginFill (color : Z)
| MoveTo (x y : R)
| LineTo (x y : R)
| ClosePath
| EndFill.

(** The [for] loop of [drawStar], from index [i], with [count] iterations
    left. *)
Fixpoint starLoop (x0 y0 radius innerRadius step : R) (i count : nat)
    : list PathCommand :=
  match count with
  | O => []
  | S count' =>
      let angle := INR i * step in
      let r := if Nat.even i then radius else innerRadius in
      LineTo (x0 + r * cos angle) (y0 + r * sin angle)
        :: starLoop x0 y0 radius innerRadius step (S i) count'
  end.

(** [drawStar(graphics, x, y, radius, points, innerRadius, color)]; [points]
    is a count (5 at the one call). *)
Definition drawStar (graphics : list PathCommand) (x0 y0 radius : R)
    (points : nat) (innerRadius : R) (color : Z) : list PathCommand :=
  let step := PI / INR points in
  graphics
    ++ [BeginFill color; MoveTo (x0 + radius) y0]
    ++ starLoop x0 y0 radius innerRadius step 0 (2 * points)
    ++ [ClosePath; EndFill].

(** A star of the background: its [Graphics] and the [position] it is given. *)
Record Star : Type := mkStar { star_path : list PathCommand; star_position : Point }.

(** [generateStars(container, numStars, worldSize)].  [Math.random()] is the
    oracle [random]: its [k]-th call returns [random k]; the result is the
    container and the number of calls made so far. *)
Fixpoint generateStars (random : nat -> R) (k : nat) (container : list Star)
    (numStars : nat) (worldSize : WorldBounds) : list Star * nat :=
  match numStars with
  | O => (container, k)
  | S numStars' =>
      let x0 := random k * width worldSize in
      let y0 := random (k + 1)%nat * height worldSize in
      let radius := random (k + 2)%nat * 5 + 3 in
      let innerRadius := radius / 2 in
      let points := 5%nat in
      let color := 16777215%Z in
      let star := drawStar [] 0 0 radius points innerRadius color in
      generateStars random (k + 3)%nat
                    (container ++ [mkStar star (mkPoint x0 y0)])
                    numStars' worldSize
  end.

(** ** Further vocabulary *)

(** [this.eatPlayer(p)] for each [p] of [ps], in order. *)
Definition eatPlayers (this : Player.t) (ps : list Player.t) : Player.t :=
  fold_left (fun acc p => fst (Player.eatPlayer acc p)) ps this.

(** The sum of the squared radii of [ps]. *)
Definition sumSquares (ps : list Player.t) : R :=
  fold_right (fun p acc => Player.radius p * Player.radius p + acc) 0 ps.

(** The distance between two points. *)
Definition distance (p q : Point) : R :=
  sqrt ((x q - x p) * (x q - x p) + (y q - y p) * (y q - y p)).

(** The local player when the scans of a tick start: moved when connected. *)
Definition afterMovement (screen : Rectangle.t) (pointer : Point) (g : Game)
    : Player.t :=
  if NetworkManager.isConnected (network g)
  then Player.moveTowards (player g) screen (x pointer) (y pointer)
  else player g.

(** A food after a scan: as it was, or destroyed by the scan. *)
Definition foodStep (f f' : Food.t) : Prop :=
  f' = f \/ (Food.destroyed f = false /\ f' = Food.destroy f).

(** A remote player after a scan: as it was, or destroyed. *)
Definition playerStep (p p' : Player.t) : Prop :=
  p' = p \/ p' = Player.destroy p.

(** The foods that a scan destroyed. *)
Definition newlyDestroyed (before after : list Food.t) : list (Food.t * Food.t) :=
  filter (fun ff => negb (Food.destroyed (fst ff)) && Food.destroyed (snd ff))
         (combine before after).

(** A vertex of a star path. *)
Definition isLineTo (c : PathCommand) : bool :=
  match c with LineTo _ _ => true | _ => false end.

(** The fields of the local player that only its constructor writes. *)
Definition sameIdentity (p p' : Player.t) : Prop :=
  Player.id p' = Player.id p
  /\ Player.baseRadius p' = Player.baseRadius p
  /\ Player.color p' = Player.color p
  /\ Player.worldBounds p' = Player.worldBounds p
  /\ Player.destroyed p' = Player.destroyed p.

(** From a non-negative radius, the local player stays where it is and does
    not shrink. *)
Definition grows (s s' : Loop) : Prop :=
  0 <= Player.radius (fst s) ->
  Player.pos (fst s') = Player.pos (fst s)
  /\ Player.radius (fst s) <= Player.radius (fst s').

(** The [sendEatFood] calls. *)
Definition isSendEatFood (m : Message) : bool :=
  match m with SendEatFood _ _ _ => true | _ => false end.

(** The number of [sendEatFood] calls among [ms]. *)
Definition countEatFood (ms : list Message) : nat :=
  length (filter isSendEatFood ms).

(** ** Properties *)

Lemma leb_true_iff (a b : R) : leb a b = true <-> a <= b.
Proof.
  unfold leb. destruct (Rle_dec a b); split; intro H;
    try reflexivity; try assumption; try discriminate; contradiction.
Qed.

Lemma leb_false_iff (a b : R) : leb a b = false <-> b < a.
Proof.
  unfold leb. destruct (Rle_dec a b); split; intro H;
    try reflexivity; try discriminate; lra.
Qed.

Lemma ltb_true_iff (a b : R) : ltb a b = true <-> a < b.
Proof.
  unfold ltb. destruct (Rlt_dec a b); split; intro H;
    try reflexivity; try assumption; try discriminate; contradiction.
Qed.

Lemma ltb_false_iff (a b : R) : ltb a b = false <-> b <= a.
Proof.
  unfold ltb. destruct (Rlt_dec a b); split; intro H;
    try reflexivity; try discriminate; lra.
Qed.

Lemma sqrt_3_4 : sqrt (3 * 3 + 4 * 4) = 5.
Proof.
  replace (3 * 3 + 4 * 4) with (5 * 5) by lra.
  apply sqrt_square. lra.
Qed.

(** *** Growth *)

(** C1, as stated, fails: a player of radius 3 that eats a player of radius 4
    ends at radius 5, without the bonus the claim gives to moving targets, and
    the same player eating food of radius 4 ends at 5 * 1.002, with the bonus
    the claim denies to food. *)
Lemma consume_bonus_counterexample :
  consume PlayerTarget (playerAt 0 0 3) 4
    <> growth (moving PlayerTarget) 3 4
  /\ consume FoodTarget (playerAt 0 0 3) 4
    <> growth (moving FoodTarget) 3 4.
Proof.
  unfold consume, growth; simpl. rewrite sqrt_3_4. split; lra.
Qed.

(** C1, amended: [eatFood] yields [sqrt (r1^2 + FOOD_RADIUS^2) * 1.002] and
    [eatBot] yields [sqrt (r1^2 + r2^2) * 1.002], both with the bonus, while
    [eatPlayer] yields [sqrt (r1^2 + r2^2)] without it; each of the three
    destroys its target. *)
Theorem consume_growth (FOOD_RADIUS : R) (this other : Player.t)
    (food : Food.t) (bot : Bot.t) :
  Player.radius (fst (Player.eatFood FOOD_RADIUS this food))
    = growth true (Player.radius this) FOOD_RADIUS
  /\ Player.radius (fst (Player.eatBot this bot))
    = growth true (Player.radius this) (Bot.radius bot)
  /\ Player.radius (fst (Player.eatPlayer this other))
    = growth false (Player.radius this) (Player.radius other)
  /\ Food.destroyed (snd (Player.eatFood FOOD_RADIUS this food)) = true
  /\ Bot.destroyed (snd (Player.eatBot this bot)) = true
  /\ Player.destroyed (snd (Player.eatPlayer this other)) = true.
Proof. repeat split. Qed.

(** *** Collision *)

(** C3: [canEatFood] and [canEatBot] are false for a destroyed target and
    otherwise hold exactly when the squared distance between the centres is
    at most the consumer's squared radius; the bot's own radius plays no
    part. *)
Theorem canEat_center_contained (this : Player.t) (food : Food.t) (bot : Bot.t) :
  (Player.canEatFood this food = true <->
     Food.destroyed food = false
     /\ (x (Food.pos food) - x (Player.pos this)) ^ 2
        + (y (Food.pos food) - y (Player.pos this)) ^ 2
        <= Player.radius this ^ 2)
  /\ (Player.canEatBot this bot = true <->
     Bot.destroyed bot = false
     /\ (x (Bot.pos bot) - x (Player.pos this)) ^ 2
        + (y (Bot.pos bot) - y (Player.pos this)) ^ 2
        <= Player.radius this ^ 2)
  /\ (forall r : R,
        Player.canEatBot this (Bot.mk (Bot.pos bot) r (Bot.destroyed bot))
        = Player.canEatBot this bot).
Proof.
  unfold Player.canEatFood, Player.canEatBot; simpl.
  repeat split.
  - destruct (Food.destroyed food); [discriminate | reflexivity].
  - destruct (Food.destroyed food); [discriminate |].
    apply leb_true_iff in H. lra.
  - intros [Hd Hle]. rewrite Hd. apply leb_true_iff. lra.
  - destruct (Bot.destroyed bot); [discriminate | reflexivity].
  - destruct (Bot.destroyed bot); [discriminate |].
    apply leb_true_iff in H. lra.
  - intros [Hd Hle]. rewrite Hd. apply leb_true_iff. lra.
Qed.

(** *** Movement *)

Lemma moveTowards_still (this : Player.t) (screen : Rectangle.t) (x0 y0 : R) :
  pointerDelta screen x0 y0 <= 3 ->
  Player.moveTowards this screen x0 y0 = this.
Proof.
  intro H. unfold Player.moveTowards. fold (pointerDelta screen x0 y0).
  apply ltb_false_iff in H. rewrite H. reflexivity.
Qed.

Lemma moveTowards_moving (this : Player.t) (screen : Rectangle.t) (x0 y0 : R) :
  3 < pointerDelta screen x0 y0 ->
  Player.moveTowards this screen x0 y0
  = let dx := x0 - Rectangle.width screen / 2 in
    let dy := y0 - Rectangle.height screen / 2 in
    let delta := pointerDelta screen x0 y0 in
    let v := Rmin (delta / Player.calculateMaxDistance screen * 2) 1
             * Player.velocityMagnitude / sqrt (Player.radius this / 20) in
    Player.set_pos this
      (mkPoint
         (Rmax 0 (Rmin (x (Player.pos this) + dx / delta * v)
                       (width (Player.worldBounds this))))
         (Rmax 0 (Rmin (y (Player.pos this) + dy / delta * v)
                       (height (Player.worldBounds this))))).
Proof.
  intro H. unfold Player.moveTowards. fold (pointerDelta screen x0 y0).
  apply ltb_true_iff in H. rewrite H. reflexivity.
Qed.

Lemma clamped_in_range (v hi : R) : 0 <= hi -> 0 <= Rmax 0 (Rmin v hi) <= hi.
Proof.
  intro H. split.
  - apply Rmax_l.
  - apply Rmax_lub; [assumption | apply Rmin_r].
Qed.

Lemma pointerDelta_center : pointerDelta screen800 400 300 = 0.
Proof.
  unfold pointerDelta, screen800; simpl.
  replace (400 - 800 / 2) with 0 by lra.
  replace (300 - 600 / 2) with 0 by lra.
  replace (0 * 0 + 0 * 0) with 0 by lra.
  apply sqrt_0.
Qed.

Lemma pointerDelta_right : pointerDelta screen800 800 300 = 400.
Proof.
  unfold pointerDelta, screen800; simpl.
  replace ((800 - 800 / 2) * (800 - 800 / 2) + (300 - 600 / 2) * (300 - 600 / 2))
    with (400 * 400) by lra.
  apply sqrt_square. lra.
Qed.

(** C5, as stated, fails: a player that starts at [(-1, -1)], outside the
    world, with the pointer at the centre of the viewport, is left where it
    is by [moveTowards]. *)
Lemma moveTowards_bounds_counterexample :
  ~ inBounds WORLD_SIZE
      (Player.pos (Player.moveTowards (playerAt (-1) (-1) 20) screen800 400 300)).
Proof.
  rewrite moveTowards_still by (rewrite pointerDelta_center; lra).
  unfold inBounds; simpl. lra.
Qed.

(** C5, amended: in a world of non-negative width and height, the position
    after [moveTowards] lies within [[0, width] x [0, height]] whenever the
    pointer is outside the dead zone ([delta > 3]) and the radius is
    positive, or the pointer is in the dead zone ([delta <= 3]) and the
    position was within the bounds before the call.  (For a radius that is
    not positive the source divides by [Math.sqrt(radius / 20)], which is 0
    or [NaN], and can write [NaN] into [pos].) *)
Theorem moveTowards_in_bounds (this : Player.t) (screen : Rectangle.t)
    (x0 y0 : R) :
  0 <= width (Player.worldBounds this) ->
  0 <= height (Player.worldBounds this) ->
  (3 < pointerDelta screen x0 y0 /\ 0 < Player.radius this)
  \/ (pointerDelta screen x0 y0 <= 3
      /\ inBounds (Player.worldBounds this) (Player.pos this)) ->
  inBounds (Player.worldBounds this)
           (Player.pos (Player.moveTowards this screen x0 y0)).
Proof.
  intros Hw Hh [[Hmove Hr] | [Hstill Hin]].
  - rewrite moveTowards_moving by assumption. unfold inBounds; simpl.
    split; apply clamped_in_range; assumption.
  - rewrite moveTowards_still by assumption. assumption.
Qed.

Lemma moveTowards_in_bounds_witness :
  inBounds WORLD_SIZE
    (Player.pos (Player.moveTowards (playerAt 9999 0 30) screen800 800 300)).
Proof.
  apply (moveTowards_in_bounds (playerAt 9999 0 30) screen800 800 300).
  - simpl. lra.
  - simpl. lra.
  - left. split; [rewrite pointerDelta_right; lra | simpl; lra].
Defined.

(** C6: when the pointer is at distance [delta <= 3] from the centre of the
    viewport, [moveTowards] leaves the player, and so its position,
    unchanged. *)
Theorem moveTowards_dead_zone (this : Player.t) (screen : Rectangle.t)
    (x0 y0 : R) :
  pointerDelta screen x0 y0 <= 3 ->
  Player.moveTowards this screen x0 y0 = this
  /\ Player.pos (Player.moveTowards this screen x0 y0) = Player.pos this.
Proof.
  intro H. rewrite moveTowards_still by assumption. split; reflexivity.
Qed.

Lemma moveTowards_dead_zone_witness :
  Player.pos (Player.moveTowards (playerAt 5000 5000 30) screen800 400 300)
  = mkPoint 5000 5000.
Proof.
  apply (moveTowards_dead_zone (playerAt 5000 5000 30) screen800 400 300).
  rewrite pointerDelta_center. lra.
Defined.

Lemma sqrt_sum_squares_scaled (dx dy v : R) :
  0 < sqrt (dx * dx + dy * dy) -> 0 <= v ->
  sqrt ((dx / sqrt (dx * dx + dy * dy) * v) * (dx / sqrt (dx * dx + dy * dy) * v)
        + (dy / sqrt (dx * dx + dy * dy) * v) * (dy / sqrt (dx * dx + dy * dy) * v))
  = v.
Proof.
  intros Hd Hv.
  assert (Hnn : 0 <= dx * dx + dy * dy) by nra.
  pose proof (sqrt_sqrt _ Hnn) as Hsq.
  set (d := sqrt (dx * dx + dy * dy)) in *.
  replace ((dx / d * v) * (dx / d * v) + (dy / d * v) * (dy / d * v))
    with (v * v).
  - apply sqrt_square. assumption.
  - transitivity ((dx * dx + dy * dy) / (d * d) * (v * v)).
    + rewrite <- Hsq. field. lra.
    + field. lra.
Qed.

Lemma speed_nonneg (delta maxDistance radius : R) :
  0 <= delta -> 0 < maxDistance -> 0 < radius ->
  0 <= Rmin (delta / maxDistance * 2) 1 * Player.velocityMagnitude
       / sqrt (radius / 20).
Proof.
  intros Hd Hm Hr. unfold Player.velocityMagnitude.
  assert (Hs : 0 < sqrt (radius / 20)) by (apply sqrt_lt_R0; lra).
  assert (Hq : 0 <= delta / maxDistance).
  { apply Rmult_le_pos; [assumption |]. left. apply Rinv_0_lt_compat. assumption. }
  assert (Hn : 0 <= Rmin (delta / maxDistance * 2) 1).
  { apply Rmin_glb; lra. }
  apply Rmult_le_pos.
  - apply Rmult_le_pos; lra.
  - left. apply Rinv_0_lt_compat. assumption.
Qed.

Lemma half_diagonal (w h : R) :
  sqrt (w / 2 * (w / 2) + h / 2 * (h / 2)) = sqrt (w * w + h * h) / 2.
Proof.
  replace (w / 2 * (w / 2) + h / 2 * (h / 2))
    with ((w * w + h * h) * (/ 2 * / 2)) by field.
  rewrite sqrt_mult_alt by nra.
  rewrite sqrt_square by lra. reflexivity.
Qed.

Lemma half_diagonal_positive (w h : R) :
  w <> 0 \/ h <> 0 -> 0 < sqrt (w / 2 * (w / 2) + h / 2 * (h / 2)).
Proof.
  intro H. apply sqrt_lt_R0.
  destruct H as [H | H].
  - assert (0 < w * w) by (apply Rsqr_pos_lt in H; unfold Rsqr in H; exact H).
    nra.
  - assert (0 < h * h) by (apply Rsqr_pos_lt in H; unfold Rsqr in H; exact H).
    nra.
Qed.

(** C7: outside the dead zone, for a positive radius and a viewport that is
    not a single point, [moveTowards] adds to the position, before the
    clamping to the world, a displacement of magnitude
    [min ((delta / maxDistance) * 2, 1) * velocityMagnitude / sqrt (radius / 20)],
    where [delta] is the distance of the pointer from the centre of the
    viewport, [velocityMagnitude] is 10 and [maxDistance], the value of
    [calculateMaxDistance], is [|(width / 2, height / 2)|], half the diagonal
    of the viewport; when the clamping leaves the new position as it is,
    that is the distance moved; and at radius 20 with the normalized distance
    saturated the magnitude is [velocityMagnitude]. *)
Theorem moveTowards_speed (this : Player.t) (screen : Rectangle.t) (x0 y0 : R) :
  3 < sqrt ((x0 - Rectangle.width screen / 2) * (x0 - Rectangle.width screen / 2)
            + (y0 - Rectangle.height screen / 2)
              * (y0 - Rectangle.height screen / 2)) ->
  0 < Player.radius this ->
  Rectangle.width screen <> 0 \/ Rectangle.height screen <> 0 ->
  let dx := x0 - Rectangle.width screen / 2 in
  let dy := y0 - Rectangle.height screen / 2 in
  let delta := sqrt (dx * dx + dy * dy) in
  let maxDistance :=
    sqrt ((Rectangle.width screen / 2) * (Rectangle.width screen / 2)
          + (Rectangle.height screen / 2) * (Rectangle.height screen / 2)) in
  let speed := Rmin (delta / maxDistance * 2) 1 * 10
               / sqrt (Player.radius this / 20) in
  let sx := dx / delta * speed in
  let sy := dy / delta * speed in
  let moved := Player.pos (Player.moveTowards this screen x0 y0) in
  Player.calculateMaxDistance screen = maxDistance
  /\ maxDistance
     = sqrt (Rectangle.width screen * Rectangle.width screen
             + Rectangle.height screen * Rectangle.height screen) / 2
  /\ Player.velocityMagnitude = 10
  /\ moved = mkPoint
               (Rmax 0 (Rmin (x (Player.pos this) + sx)
                             (width (Player.worldBounds this))))
               (Rmax 0 (Rmin (y (Player.pos this) + sy)
                             (height (Player.worldBounds this))))
  /\ sqrt (sx * sx + sy * sy) = speed
  /\ (inBounds (Player.worldBounds this)
        (mkPoint (x (Player.pos this) + sx) (y (Player.pos this) + sy)) ->
      sqrt ((x moved - x (Player.pos this)) * (x moved - x (Player.pos this))
            + (y moved - y (Player.pos this)) * (y moved - y (Player.pos this)))
      = speed)
  /\ (Player.radius this = 20 -> 1 <= delta / maxDistance * 2 ->
      speed = Player.velocityMagnitude).
Proof.
  intros Hdelta Hr Hview dx dy delta maxDistance speed sx sy moved.
  assert (Hmax : 0 < maxDistance) by (apply half_diagonal_positive; assumption).
  assert (Hspeed : 0 <= speed).
  { apply (speed_nonneg delta maxDistance (Player.radius this));
      try assumption. unfold delta. apply sqrt_pos. }
  assert (Hmag : sqrt (sx * sx + sy * sy) = speed).
  { unfold sx, sy, delta.
    apply sqrt_sum_squares_scaled; [| assumption]. fold delta. unfold delta, dx, dy. lra. }
  assert (Hmoved : moved
                   = mkPoint
                       (Rmax 0 (Rmin (x (Player.pos this) + sx)
                                     (width (Player.worldBounds this))))
                       (Rmax 0 (Rmin (y (Player.pos this) + sy)
                                     (height (Player.worldBounds this))))).
  { unfold moved. rewrite moveTowards_moving by exact Hdelta. reflexivity. }
  split; [reflexivity |].
  split; [apply half_diagonal |].
  split; [reflexivity |].
  split; [assumption |]. split; [assumption |]. split.
  - intros [[Hx0 Hx1] [Hy0 Hy1]]; simpl in *.
    rewrite Hmoved; simpl.
    rewrite (Rmin_left _ _ Hx1), (Rmin_left _ _ Hy1).
    rewrite (Rmax_right _ _ Hx0), (Rmax_right _ _ Hy0).
    replace (x (Player.pos this) + sx - x (Player.pos this)) with sx by lra.
    replace (y (Player.pos this) + sy - y (Player.pos this)) with sy by lra.
    assumption.
  - intros H20 Hsat. unfold speed, Player.velocityMagnitude. rewrite H20.
    rewrite (Rmin_right _ _ Hsat).
    replace (20 / 20) with 1 by lra. rewrite sqrt_1. lra.
Qed.

Lemma calculateMaxDistance_800_600 : Player.calculateMaxDistance screen800 = 500.
Proof.
  unfold Player.calculateMaxDistance, screen800; simpl.
  replace (800 / 2 * (800 / 2) + 600 / 2 * (600 / 2)) with (500 * 500) by lra.
  apply sqrt_square. lra.
Qed.

Lemma moveTowards_speed_witness :
  Player.pos (Player.moveTowards (playerAt 5000 5000 20) screen800 800 300)
  = mkPoint 5010 5000.
Proof.
  assert (H3 : 3 < sqrt ((800 - Rectangle.width screen800 / 2)
                         * (800 - Rectangle.width screen800 / 2)
                         + (300 - Rectangle.height screen800 / 2)
                           * (300 - Rectangle.height screen800 / 2))).
  { change (3 < pointerDelta screen800 800 300). rewrite pointerDelta_right. lra. }
  assert (Hr : 0 < Player.radius (playerAt 5000 5000 20)) by (simpl; lra).
  assert (Hv : Rectangle.width screen800 <> 0 \/ Rectangle.height screen800 <> 0)
    by (left; simpl; lra).
  pose proof (moveTowards_speed (playerAt 5000 5000 20) screen800 800 300
                H3 Hr Hv) as H.
  cbv zeta in H. destruct H as (_ & _ & _ & Hpos & _ & _ & Hsat).
  rewrite Hpos, Hsat.
  - change (sqrt ((800 - Rectangle.width screen800 / 2)
                  * (800 - Rectangle.width screen800 / 2)
                  + (300 - Rectangle.height screen800 / 2)
                    * (300 - Rectangle.height screen800 / 2)))
      with (pointerDelta screen800 800 300).
    rewrite pointerDelta_right. unfold Player.velocityMagnitude; simpl.
    replace (5000 + (800 - 800 / 2) / 400 * 10) with 5010 by lra.
    replace (5000 + (300 - 600 / 2) / 400 * 10) with 5000 by lra.
    rewrite (Rmin_left 5010 10000), (Rmin_left 5000 10000) by lra.
    rewrite (Rmax_right 0 5010), (Rmax_right 0 5000) by lra.
    reflexivity.
  - reflexivity.
  - change (sqrt ((800 - Rectangle.width screen800 / 2)
                  * (800 - Rectangle.width screen800 / 2)
                  + (300 - Rectangle.height screen800 / 2)
                    * (300 - Rectangle.height screen800 / 2)))
      with (pointerDelta screen800 800 300).
    change (sqrt (Rectangle.width screen800 / 2 * (Rectangle.width screen800 / 2)
                  + Rectangle.height screen800 / 2
                    * (Rectangle.height screen800 / 2)))
      with (Player.calculateMaxDistance screen800).
    rewrite pointerDelta_right, calculateMaxDistance_800_600. lra.
Defined.

(** *** Camera *)

Lemma clamp_max_min (v : R) : Rmax 0.1 (Rmin 1 v) = clamp v 0.1 1.
Proof.
  unfold clamp, ltb.
  destruct (Rlt_dec v 0.1) as [Hlo | Hlo].
  - rewrite Rmin_right by lra. apply Rmax_left. lra.
  - destruct (Rlt_dec 1 v) as [Hhi | Hhi].
    + rewrite Rmin_left by lra. apply Rmax_right. lra.
    + rewrite Rmin_right by lra. apply Rmax_right. lra.
Qed.

Lemma clamp_monotone (u v : R) :
  u <= v -> Rmax 0.1 (Rmin 1 u) <= Rmax 0.1 (Rmin 1 v).
Proof.
  intro H. apply Rle_max_compat_l. apply Rle_min_compat_l. assumption.
Qed.

Lemma quotient_antitone (c a b : R) : 0 <= c -> 0 < a -> a <= b -> c / b <= c / a.
Proof.
  intros Hc Ha Hab. unfold Rdiv. apply Rmult_le_compat_l; [assumption |].
  apply Rinv_le_contravar; assumption.
Qed.

Lemma clampExtended_max_min (e : Extended) :
  Math_max 0.1 (Math_min 1 e) = clampExtended e 0.1 1.
Proof.
  destruct e as [v | | |]; simpl.
  - rewrite clamp_max_min. reflexivity.
  - rewrite Rmax_right by lra. reflexivity.
  - reflexivity.
  - reflexivity.
Qed.

Lemma Math_log_positive (r : R) : 0 < r -> Math_log r = Real (ln r).
Proof.
  intro H. unfold Math_log.
  assert (Hb : ltb r 0 = false) by (apply ltb_false_iff; lra). rewrite Hb.
  destruct (Req_dec_T r 0); [lra | reflexivity].
Qed.

Lemma ln_nonzero (r : R) : 0 < r -> r <> 1 -> ln r <> 0.
Proof.
  intros H0 H1 Hln. apply H1. apply ln_inv; [assumption | lra |].
  rewrite ln_1. assumption.
Qed.

Lemma divide_nonzero (a b : R) : b <> 0 -> divide a (Real b) = Real (a / b).
Proof.
  intro H. unfold divide. destruct (Req_dec_T b 0); [contradiction | reflexivity].
Qed.

Lemma divide_by_zero (a : R) : 0 < a -> divide a (Real 0) = PlusInfinity.
Proof.
  intro H. unfold divide. destruct (Req_dec_T 0 0); [| contradiction].
  apply ltb_true_iff in H. rewrite H. reflexivity.
Qed.

Lemma targetZoom_below (r : R) :
  0 < r -> r < 80 -> r <> 1 -> targetZoom r = Rmax 0.1 (Rmin 1 (50 / ln r)).
Proof.
  intros H0 H80 H1. unfold targetZoom, zoom.
  assert (Hb : ltb r 80 = true) by (apply ltb_true_iff; assumption).
  rewrite Hb, Math_log_positive by assumption.
  rewrite divide_nonzero by (apply ln_nonzero; assumption). reflexivity.
Qed.

Lemma targetZoom_above (r : R) :
  80 < r -> targetZoom r = Rmax 0.1 (Rmin 1 (100 / (r - 80))).
Proof.
  intro H. unfold targetZoom, zoom.
  assert (Hb : ltb r 80 = false) by (apply ltb_false_iff; lra).
  rewrite Hb, divide_nonzero by lra. reflexivity.
Qed.

Lemma targetZoom_at_1 : targetZoom 1 = 1.
Proof.
  unfold targetZoom, zoom.
  assert (Hb : ltb 1 80 = true) by (apply ltb_true_iff; lra).
  rewrite Hb, Math_log_positive, ln_1, divide_by_zero by lra. simpl.
  apply Rmax_right. lra.
Qed.

Lemma targetZoom_at_80 : targetZoom 80 = 1.
Proof.
  unfold targetZoom, zoom.
  assert (Hb : ltb 80 80 = false) by (apply ltb_false_iff; lra).
  rewrite Hb. replace (80 - 80) with 0 by lra.
  rewrite divide_by_zero by lra. simpl. apply Rmax_right. lra.
Qed.

Lemma clamped_upper (e : Extended) : toReal (Math_max 0.1 (Math_min 1 e)) <= 1.
Proof.
  destruct e as [v | | |]; simpl; try lra.
  - apply Rmax_lub; [lra | apply Rmin_l].
  - apply Rmax_lub; lra.
Qed.

Lemma targetZoom_upper (r : R) : targetZoom r <= 1.
Proof.
  unfold targetZoom, zoom. destruct (ltb r 80); apply clamped_upper.
Qed.

(** C8: the zoom that the loop computes is [clamp (50 / ln radius, 0.1, 1)]
    below radius 80 and [clamp (100 / (radius - 80), 0.1, 1)] from 80 on, in
    the arithmetic of the source, where a division by zero gives an infinity
    that the clamp brings back to 1: the zoom is 1 at radius 1 and at radius
    80, and elsewhere, for a positive radius, it is the clamp of the real
    quotient.  It does not increase when the radius grows within [[1, 80)]
    or within [[80, infinity)]. *)
Theorem targetZoom_piecewise_antitone :
  (forall r : R,
     r < 80 -> zoom r = clampExtended (divide 50 (Math_log r)) 0.1 1)
  /\ (forall r : R,
        80 <= r -> zoom r = clampExtended (divide 100 (Real (r - 80))) 0.1 1)
  /\ (forall r : R,
        0 < r -> r < 80 -> r <> 1 ->
        zoom r = Real (clamp (50 / ln r) 0.1 1)
        /\ targetZoom r = clamp (50 / ln r) 0.1 1)
  /\ (forall r : R,
        80 < r ->
        zoom r = Real (clamp (100 / (r - 80)) 0.1 1)
        /\ targetZoom r = clamp (100 / (r - 80)) 0.1 1)
  /\ (zoom 1 = Real 1 /\ targetZoom 1 = 1)
  /\ (zoom 80 = Real 1 /\ targetZoom 80 = 1)
  /\ (forall r1 r2 : R,
        1 <= r1 -> r1 <= r2 -> r2 < 80 -> targetZoom r2 <= targetZoom r1)
  /\ (forall r1 r2 : R, 80 <= r1 -> r1 <= r2 -> targetZoom r2 <= targetZoom r1).
Proof.
  split; [| split; [| split; [| split; [| split; [| split; [| split]]]]]].
  - intros r Hr. unfold zoom.
    apply ltb_true_iff in Hr. rewrite Hr. apply clampExtended_max_min.
  - intros r Hr. unfold zoom.
    apply ltb_false_iff in Hr. rewrite Hr. apply clampExtended_max_min.
  - intros r H0 H80 H1.
    assert (Hz : zoom r = Real (clamp (50 / ln r) 0.1 1)).
    { unfold zoom.
      assert (Hb : ltb r 80 = true) by (apply ltb_true_iff; assumption).
      rewrite Hb, Math_log_positive by assumption.
      rewrite divide_nonzero by (apply ln_nonzero; assumption).
      simpl. rewrite clamp_max_min. reflexivity. }
    split; [exact Hz |]. unfold targetZoom. rewrite Hz. reflexivity.
  - intros r H80.
    assert (Hz : zoom r = Real (clamp (100 / (r - 80)) 0.1 1)).
    { unfold zoom.
      assert (Hb : ltb r 80 = false) by (apply ltb_false_iff; lra).
      rewrite Hb, divide_nonzero by lra.
      simpl. rewrite clamp_max_min. reflexivity. }
    split; [exact Hz |]. unfold targetZoom. rewrite Hz. reflexivity.
  - pose proof targetZoom_at_1 as H. unfold targetZoom in H.
    split; [| exact H].
    unfold zoom.
    assert (Hb : ltb 1 80 = true) by (apply ltb_true_iff; lra).
    rewrite Hb, Math_log_positive, ln_1, divide_by_zero by lra. simpl.
    rewrite Rmax_right by lra. reflexivity.
  - pose proof targetZoom_at_80 as H. unfold targetZoom in H.
    split; [| exact H].
    unfold zoom.
    assert (Hb : ltb 80 80 = false) by (apply ltb_false_iff; lra).
    rewrite Hb. replace (80 - 80) with 0 by lra.
    rewrite divide_by_zero by lra. simpl.
    rewrite Rmax_right by lra. reflexivity.
  - intros r1 r2 H1 H12 H2.
    destruct H1 as [H1 | H1].
    + rewrite (targetZoom_below r1), (targetZoom_below r2) by lra.
      apply clamp_monotone.
      assert (Hln1 : 0 < ln r1) by (rewrite <- ln_1; apply ln_increasing; lra).
      assert (Hln : ln r1 <= ln r2).
      { destruct H12 as [Hlt | Heq].
        - left. apply ln_increasing; lra.
        - right. rewrite Heq. reflexivity. }
      apply quotient_antitone; [lra | assumption | assumption].
    + rewrite <- H1, targetZoom_at_1. apply targetZoom_upper.
  - intros r1 r2 H1 H12.
    destruct H1 as [H1 | H1].
    + rewrite (targetZoom_above r1), (targetZoom_above r2) by lra.
      apply clamp_monotone. apply quotient_antitone; lra.
    + rewrite <- H1, targetZoom_at_80. apply targetZoom_upper.
Qed.

Lemma lerp_error (value target : R) :
  lerp value target 0.05 - target = 0.95 * (value - target).
Proof. unfold lerp. lra. Qed.

Lemma smooth_error (n : nat) (value target : R) :
  smooth n value target - target = 0.95 ^ n * (value - target).
Proof.
  induction n as [| n IH]; simpl.
  - lra.
  - rewrite lerp_error, IH. lra.
Qed.

Lemma tick_scale (FOOD_RADIUS : R) (canEatPlayer : Player.t -> Player.t -> bool)
    (screen : Rectangle.t) (pointer : Point) (g : Game) :
  let g' := tick FOOD_RADIUS canEatPlayer screen pointer g in
  Container.scale (world g')
  = mkPoint (lerp (x (Container.scale (world g)))
                  (targetZoom (Player.radius (player g'))) 0.05)
            (lerp (y (Container.scale (world g)))
                  (targetZoom (Player.radius (player g'))) 0.05)
  /\ Container.position (world g')
  = mkPoint (lerp (x (Container.position (world g)))
                  (Rectangle.width screen / 2
                   - x (Player.pos (player g')) * x (Container.scale (world g')))
                  0.05)
            (lerp (y (Container.position (world g)))
                  (Rectangle.height screen / 2
                   - y (Player.pos (player g')) * y (Container.scale (world g')))
                  0.05).
Proof.
  unfold tick.
  destruct (forEach (visitFood FOOD_RADIUS) _ _) as [s1 foods1].
  destruct (forEach (visitPlayer canEatPlayer) s1 _) as [[player2 sent2] players2].
  simpl. split; reflexivity.
Qed.

(** C9: one camera step is [lerp value target 0.05 = value * 0.95 + target *
    0.05]; the game loop applies it to both components of the scale and of
    the position of the world; it multiplies the error [|value - target|] by
    exactly 0.95, so that [n] steps towards a constant target multiply it by
    [0.95 ^ n], and the iterates converge to the target. *)
Theorem lerp_converges (value target : R) :
  lerp value target 0.05 = value * 0.95 + target * 0.05
  /\ Rabs (lerp value target 0.05 - target) = 0.95 * Rabs (value - target)
  /\ (forall n : nat,
        Rabs (smooth n value target - target)
        = 0.95 ^ n * Rabs (value - target))
  /\ (forall eps : R, 0 < eps ->
        exists N : nat, forall n : nat, (N <= n)%nat ->
          Rabs (smooth n value target - target) < eps)
  /\ (forall FOOD_RADIUS canEatPlayer screen pointer g,
        let g' := tick FOOD_RADIUS canEatPlayer screen pointer g in
        x (Container.scale (world g'))
        = lerp (x (Container.scale (world g)))
               (targetZoom (Player.radius (player g'))) 0.05
        /\ y (Container.scale (world g'))
        = lerp (y (Container.scale (world g)))
               (targetZoom (Player.radius (player g'))) 0.05
        /\ x (Container.position (world g'))
        = lerp (x (Container.position (world g)))
               (Rectangle.width screen / 2
                - x (Player.pos (player g')) * x (Container.scale (world g')))
               0.05
        /\ y (Container.position (world g'))
        = lerp (y (Container.position (world g)))
               (Rectangle.height screen / 2
                - y (Player.pos (player g')) * y (Container.scale (world g')))
               0.05).
Proof.
  split; [unfold lerp; lra |]. split.
  { rewrite lerp_error, Rabs_mult. rewrite (Rabs_right 0.95) by lra. reflexivity. }
  assert (Hiter : forall n : nat,
             Rabs (smooth n value target - target)
             = 0.95 ^ n * Rabs (value - target)).
  { intro n. rewrite smooth_error, Rabs_mult.
    rewrite (Rabs_right (0.95 ^ n)); [reflexivity |].
    apply Rle_ge. apply pow_le. lra. }
  split; [exact Hiter |]. split.
  - intros eps Heps.
    assert (Hbase : Rabs 0.95 < 1) by (rewrite Rabs_right; lra).
    assert (Hscale : 0 < eps / (Rabs (value - target) + 1)).
    { apply Rdiv_lt_0_compat; [assumption |].
      pose proof (Rabs_pos (value - target)). lra. }
    destruct (pow_lt_1_zero 0.95 Hbase _ Hscale) as [N HN].
    exists N. intros n Hn. rewrite Hiter.
    specialize (HN n Hn). rewrite Rabs_right in HN
      by (apply Rle_ge; apply pow_le; lra).
    pose proof (Rabs_pos (value - target)) as Hpos.
    assert (Hpow : 0 <= 0.95 ^ n) by (apply pow_le; lra).
    apply Rle_lt_trans with (0.95 ^ n * (Rabs (value - target) + 1)).
    + nra.
    + apply Rmult_lt_reg_r with (/ (Rabs (value - target) + 1)).
      * apply Rinv_0_lt_compat. lra.
      * rewrite Rmult_assoc, Rinv_r by lra. lra.
  - intros FR cep screen pointer g g'.
    destruct (tick_scale FR cep screen pointer g) as [Hs Hp].
    fold g' in Hs, Hp. rewrite Hp, Hs. simpl. repeat split; reflexivity.
Qed.

(** *** The game loop *)

Lemma forEach_app {A : Type} (body : Loop -> A -> Loop * A) (s : Loop)
    (l1 l2 : list A) :
  forEach body s (l1 ++ l2)
  = let '(s1, l1') := forEach body s l1 in
    let '(s2, l2') := forEach body s1 l2 in
    (s2, l1' ++ l2').
Proof.
  revert s. induction l1 as [| a l1 IH]; intro s; simpl.
  - destruct (forEach body s l2) as [s2 l2']. reflexivity.
  - destruct (body s a) as [s1 a1]. rewrite IH.
    destruct (forEach body s1 l1) as [s1' l1'].
    destruct (forEach body s1' l2) as [s2 l2']. reflexivity.
Qed.

Lemma extends_refl (s : Loop) : extends s s.
Proof.
  split; [reflexivity |]. exists []. rewrite app_nil_r. split; reflexivity.
Qed.

Lemma extends_trans (s1 s2 s3 : Loop) :
  extends s1 s2 -> extends s2 s3 -> extends s1 s3.
Proof.
  intros [Hp1 [i1 [Hs1 Hi1]]] [Hp2 [i2 [Hs2 Hi2]]]. split.
  - congruence.
  - exists (i1 ++ i2). split.
    + rewrite Hs2, Hs1, app_assoc. reflexivity.
    + rewrite forallb_app, Hi1, Hi2. reflexivity.
Qed.

Lemma forEach_extends {A : Type} (body : Loop -> A -> Loop * A) :
  (forall s a, extends s (fst (body s a))) ->
  forall l s, extends s (fst (forEach body s l)).
Proof.
  intros Hbody l. induction l as [| a l IH]; intro s; simpl.
  - apply extends_refl.
  - specialize (Hbody s a). destruct (body s a) as [s1 a1]. simpl in Hbody.
    specialize (IH s1). destruct (forEach body s1 l) as [s2 l1]. simpl in *.
    eapply extends_trans; eassumption.
Qed.

Lemma visitFood_eats (FOOD_RADIUS : R) (this : Player.t) (sent : list Message)
    (f : Food.t) :
  Player.canEatFood this f = true ->
  visitFood FOOD_RADIUS (this, sent) f
  = ((fst (Player.eatFood FOOD_RADIUS this f),
      sent ++ [SendEatFood (Zfloor (x (Food.pos f))) (Zfloor (y (Food.pos f)))
                 (Zfloor (Player.radius (fst (Player.eatFood FOOD_RADIUS this f))))]),
     Food.destroy f).
Proof. intro H. unfold visitFood. rewrite H. reflexivity. Qed.

Lemma visitPlayer_eats (canEatPlayer : Player.t -> Player.t -> bool)
    (this : Player.t) (sent : list Message) (p : Player.t) (i : list byte) :
  canEatPlayer this p = true -> Player.id p = Some i ->
  visitPlayer canEatPlayer (this, sent) p
  = ((fst (Player.eatPlayer this p),
      sent ++ [SendEatPlayer i (Player.radius this)]),
     Player.destroy p).
Proof. intros H Hid. unfold visitPlayer. rewrite H, Hid. reflexivity. Qed.

Lemma visitPlayer_anonymous (canEatPlayer : Player.t -> Player.t -> bool)
    (s : Loop) (p : Player.t) :
  canEatPlayer (fst s) p = true -> Player.id p = None ->
  visitPlayer canEatPlayer s p = (s, Player.destroy p).
Proof.
  intros H Hid. destruct s as [this sent]. unfold visitPlayer.
  simpl in H. rewrite H, Hid. reflexivity.
Qed.

Lemma visitPlayer_misses (canEatPlayer : Player.t -> Player.t -> bool)
    (s : Loop) (p : Player.t) :
  canEatPlayer (fst s) p = false -> visitPlayer canEatPlayer s p = (s, p).
Proof.
  intro H. destruct s as [this sent]. unfold visitPlayer.
  simpl in H. rewrite H. reflexivity.
Qed.

Lemma visitFood_extends (FOOD_RADIUS : R) (s : Loop) (f : Food.t) :
  extends s (fst (visitFood FOOD_RADIUS s f)).
Proof.
  destruct s as [this sent]. unfold visitFood.
  destruct (Player.canEatFood this f); simpl.
  - split; [reflexivity |]. eexists. split; reflexivity.
  - apply extends_refl.
Qed.

Lemma visitPlayer_extends (canEatPlayer : Player.t -> Player.t -> bool)
    (s : Loop) (p : Player.t) :
  extends s (fst (visitPlayer canEatPlayer s p)).
Proof.
  destruct s as [this sent]. unfold visitPlayer.
  destruct (canEatPlayer this p); [| apply extends_refl].
  destruct (Player.id p) as [i |]; simpl.
  - split; [reflexivity |]. eexists. split; reflexivity.
  - apply extends_refl.
Qed.

(** The loop, step by step: the state [s0] after the movement guarded by
    [isConnected], then the two scans. *)
Lemma tick_scans (FOOD_RADIUS : R) (canEatPlayer : Player.t -> Player.t -> bool)
    (screen : Rectangle.t) (pointer : Point) (g : Game) :
  let g' := tick FOOD_RADIUS canEatPlayer screen pointer g in
  let s0 :=
    if NetworkManager.isConnected (network g) then
      let moved := Player.moveTowards (player g) screen (x pointer) (y pointer) in
      (moved,
       NetworkManager.sent (network g)
         ++ [SendMovement (x (Player.pos moved)) (y (Player.pos moved))])
    else (player g, NetworkManager.sent (network g)) in
  exists s1 : Loop,
    forEach (visitFood FOOD_RADIUS) s0 (NetworkManager.foods (network g))
    = (s1, NetworkManager.foods (network g'))
    /\ forEach (visitPlayer canEatPlayer) s1 (NetworkManager.players (network g))
       = ((player g', NetworkManager.sent (network g')),
          NetworkManager.players (network g'))
    /\ NetworkManager.connected (network g')
       = NetworkManager.connected (network g).
Proof.
  unfold tick.
  destruct (forEach (visitFood FOOD_RADIUS) _ _) as [s1 foods1].
  destruct (forEach (visitPlayer canEatPlayer) s1 _)
    as [[player2 sent2] players2] eqn:Hplayers.
  simpl. exists s1. repeat split; try reflexivity; assumption.
Qed.

Lemma sqrt_40_30 : sqrt (40 * 40 + 30 * 30) = 50.
Proof.
  replace (40 * 40 + 30 * 30) with (50 * 50) by lra.
  apply sqrt_square. lra.
Qed.

Lemma canEatFood_same_center (this : Player.t) (f : Food.t) :
  Food.destroyed f = false -> Food.pos f = Player.pos this ->
  Player.canEatFood this f = true.
Proof.
  intros Hd Hp. unfold Player.canEatFood. rewrite Hd, Hp.
  apply leb_true_iff. nra.
Qed.

Lemma canConsume_same_center (this p : Player.t) :
  Player.destroyed p = false -> Player.pos p = Player.pos this ->
  canConsume this p = true.
Proof.
  intros Hd Hp. unfold canConsume. rewrite Hd, Hp.
  apply leb_true_iff. nra.
Qed.

(** C2, as stated, fails: with [isConnected()] false, a tick still finds the
    piece of food under the local player, destroys it, grows the player and
    calls [sendEatFood]. *)
Lemma tick_offline_counterexample :
  NetworkManager.isConnected (network offlineGame) = false
  /\ NetworkManager.sent
       (network (tick 4 canConsume screen800 (mkPoint 400 300) offlineGame))
     = [SendEatFood 5000 5000 5]
  /\ NetworkManager.foods
       (network (tick 4 canConsume screen800 (mkPoint 400 300) offlineGame))
     = [Food.mk (mkPoint 5000 5000) true]
  /\ Player.radius
       (player (tick 4 canConsume screen800 (mkPoint 400 300) offlineGame))
     = 5 * 1.002.
Proof.
  assert (Hfloor : Zfloor (sqrt (3 * 3 + 4 * 4) * 1.002) = 5%Z).
  { rewrite sqrt_3_4. apply Zfloor_eq. lra. }
  unfold tick, offlineGame.
  cbn [network player world NetworkManager.isConnected NetworkManager.connected
       NetworkManager.foods NetworkManager.players NetworkManager.sent forEach].
  rewrite visitFood_eats by (apply canEatFood_same_center; reflexivity).
  cbn. rewrite !ZfloorZ, Hfloor, sqrt_3_4. repeat split; reflexivity.
Qed.

(** C2, amended: when [isConnected()] is false the tick neither moves the
    local player nor calls [sendMovement], and its position is the same after
    the tick; the scan of the foods and the scan of the players still run,
    starting from the unmoved player, and the calls the tick adds are
    consumption intents only. *)
Theorem tick_offline (FOOD_RADIUS : R)
    (canEatPlayer : Player.t -> Player.t -> bool) (screen : Rectangle.t)
    (pointer : Point) (g : Game) :
  NetworkManager.isConnected (network g) = false ->
  let g' := tick FOOD_RADIUS canEatPlayer screen pointer g in
  Player.pos (player g') = Player.pos (player g)
  /\ (exists intents : list Message,
        NetworkManager.sent (network g')
        = NetworkManager.sent (network g) ++ intents
        /\ forallb isEatIntent intents = true)
  /\ (exists s1 : Loop,
        forEach (visitFood FOOD_RADIUS)
                (player g, NetworkManager.sent (network g))
                (NetworkManager.foods (network g))
        = (s1, NetworkManager.foods (network g'))
        /\ forEach (visitPlayer canEatPlayer) s1
                   (NetworkManager.players (network g))
           = ((player g', NetworkManager.sent (network g')),
              NetworkManager.players (network g'))).
Proof.
  intros Hoff g'.
  destruct (tick_scans FOOD_RADIUS canEatPlayer screen pointer g)
    as [s1 [Hfoods [Hplayers _]]].
  fold g' in Hfoods, Hplayers. rewrite Hoff in Hfoods.
  assert (H1 : extends (player g, NetworkManager.sent (network g)) s1).
  { pose proof (forEach_extends (visitFood FOOD_RADIUS)
                  (visitFood_extends FOOD_RADIUS)
                  (NetworkManager.foods (network g))
                  (player g, NetworkManager.sent (network g))) as H.
    rewrite Hfoods in H. exact H. }
  assert (H2 : extends s1 (player g', NetworkManager.sent (network g'))).
  { pose proof (forEach_extends (visitPlayer canEatPlayer)
                  (visitPlayer_extends canEatPlayer)
                  (NetworkManager.players (network g)) s1) as H.
    rewrite Hplayers in H. exact H. }
  destruct (extends_trans _ _ _ H1 H2) as [Hpos Hsent]. simpl in Hpos, Hsent.
  split; [exact Hpos |]. split; [exact Hsent |].
  exists s1. split; assumption.
Qed.

Lemma tick_offline_witness :
  Player.pos (player (tick 4 canConsume screen800 (mkPoint 800 300) offlineGame))
  = mkPoint 5000 5000.
Proof.
  apply (tick_offline 4 canConsume screen800 (mkPoint 800 300) offlineGame).
  reflexivity.
Defined.

(** C4: on [duelGame], where the local player of radius 40 covers a remote
    player of radius 30 that has an identity, the tick grows the local player
    to radius 50 and the [sendEatPlayer] it emits carries 40, the radius
    before the growth. *)
Theorem tick_sendEatPlayer_radius :
  NetworkManager.sent
    (network (tick 4 canConsume screen800 (mkPoint 400 300) duelGame))
  = [SendMovement 5000 5000; SendEatPlayer ["007"%byte] 40]
  /\ Player.radius
       (player (tick 4 canConsume screen800 (mkPoint 400 300) duelGame))
     = 50
  /\ Player.destroyed rival = false
  /\ NetworkManager.players
       (network (tick 4 canConsume screen800 (mkPoint 400 300) duelGame))
     = [Player.destroy rival].
Proof.
  unfold tick, duelGame.
  cbn [network player world NetworkManager.isConnected NetworkManager.connected
       NetworkManager.foods NetworkManager.players NetworkManager.sent forEach
       x y].
  rewrite moveTowards_still by (rewrite pointerDelta_center; lra).
  cbn [forEach].
  rewrite (visitPlayer_eats canConsume _ _ rival ["007"%byte])
    by (try apply canConsume_same_center; reflexivity).
  cbn. rewrite sqrt_40_30. repeat split; reflexivity.
Qed.

(** C10: in the scan of the remote players, a player [p] that the collision
    predicate accepts when its turn comes is destroyed; the local player
    grows by [eatPlayer] and [sendEatPlayer] is called, with the radius before
    the growth, only when [p.id] is defined; for an undefined [p.id] the local
    player and the calls made are left as they were; and a player that the
    predicate rejects changes nothing. *)
Theorem scan_players (canEatPlayer : Player.t -> Player.t -> bool) (s : Loop)
    (pre post : list Player.t) (p : Player.t) :
  let '(s0, pre') := forEach (visitPlayer canEatPlayer) s pre in
  let '(s1, p') := visitPlayer canEatPlayer s0 p in
  let '(s2, post') := forEach (visitPlayer canEatPlayer) s1 post in
  forEach (visitPlayer canEatPlayer) s (pre ++ p :: post)
  = (s2, pre' ++ p' :: post')
  /\ (canEatPlayer (fst s0) p = true ->
      Player.destroyed p' = true
      /\ match Player.id p with
         | Some i =>
             Player.radius (fst s1)
             = sqrt (Player.radius (fst s0) * Player.radius (fst s0)
                     + Player.radius p * Player.radius p)
             /\ snd s1 = snd s0 ++ [SendEatPlayer i (Player.radius (fst s0))]
         | None => s1 = s0
         end)
  /\ (canEatPlayer (fst s0) p = false -> s1 = s0 /\ p' = p).
Proof.
  rewrite forEach_app.
  destruct (forEach (visitPlayer canEatPlayer) s pre) as [s0 pre'].
  cbn [forEach].
  destruct (visitPlayer canEatPlayer s0 p) as [s1 p'] eqn:Hvisit.
  destruct (forEach (visitPlayer canEatPlayer) s1 post) as [s2 post'].
  split; [reflexivity |]. split.
  - intro Hhit. destruct (Player.id p) as [i |] eqn:Hid.
    + destruct s0 as [this sent].
      rewrite (visitPlayer_eats canEatPlayer this sent p i Hhit Hid) in Hvisit.
      inversion Hvisit; subst. repeat split; reflexivity.
    + rewrite (visitPlayer_anonymous canEatPlayer s0 p Hhit Hid) in Hvisit.
      inversion Hvisit; subst. split; reflexivity.
  - intro Hmiss.
    rewrite (visitPlayer_misses canEatPlayer s0 p Hmiss) in Hvisit.
    inversion Hvisit; subst. split; reflexivity.
Qed.

(** ** Further properties of the growth and of the collision test *)

Lemma sqrt_sum_ge_l (a b : R) : 0 <= a -> a <= sqrt (a * a + b * b).
Proof.
  intro Ha. rewrite <- (sqrt_square a) at 1 by assumption.
  apply sqrt_le_1; nra.
Qed.

Lemma sqrt_sum_ge_r (a b : R) : 0 <= b -> b <= sqrt (a * a + b * b).
Proof.
  intro Hb. rewrite <- (sqrt_square b) at 1 by assumption.
  apply sqrt_le_1; nra.
Qed.

Lemma sumSquares_nonneg (ps : list Player.t) : 0 <= sumSquares ps.
Proof.
  induction ps as [| p ps IH]; simpl; [lra | nra].
Qed.

Lemma sumSquares_perm (ps qs : list Player.t) :
  Permutation ps qs -> sumSquares ps = sumSquares qs.
Proof.
  intro H. induction H; simpl; lra.
Qed.

Lemma eatPlayers_radius (ps : list Player.t) :
  forall this : Player.t,
    0 <= Player.radius this ->
    Player.radius (eatPlayers this ps)
    = sqrt (Player.radius this * Player.radius this + sumSquares ps).
Proof.
  induction ps as [| p ps IH]; intros this Hr; simpl.
  - rewrite Rplus_0_r, sqrt_square by assumption. reflexivity.
  - unfold eatPlayers in *. simpl. rewrite IH; simpl.
    + rewrite sqrt_sqrt by nra. f_equal. lra.
    + apply sqrt_pos.
Qed.

(** Eating players adds areas: after [eatPlayer] on each player of a list,
    the radius of a consumer that started with a non-negative radius is the
    square root of the sum of all the squared radii, so that the order in
    which the players are eaten does not matter. *)
Theorem eatPlayer_adds_areas (this : Player.t) (ps : list Player.t) :
  0 <= Player.radius this ->
  Player.radius (eatPlayers this ps)
  = sqrt (Player.radius this * Player.radius this + sumSquares ps)
  /\ (forall qs : list Player.t,
        Permutation ps qs ->
        Player.radius (eatPlayers this qs) = Player.radius (eatPlayers this ps)).
Proof.
  intro Hr. split.
  - apply eatPlayers_radius. assumption.
  - intros qs Hperm. rewrite !eatPlayers_radius by assumption.
    rewrite (sumSquares_perm ps qs Hperm). reflexivity.
Qed.

Lemma eatPlayer_adds_areas_witness :
  Player.radius (eatPlayers (playerAt 0 0 40) [rival])
  = sqrt (40 * 40 + (30 * 30 + 0)).
Proof.
  apply (eatPlayer_adds_areas (playerAt 0 0 40) [rival]). simpl. lra.
Defined.

Lemma eat_grows_aux (FOOD_RADIUS : R) (this other : Player.t) (food : Food.t)
    (bot : Bot.t) :
  0 <= Player.radius this ->
  Player.radius this <= Player.radius (fst (Player.eatFood FOOD_RADIUS this food))
  /\ Player.radius this <= Player.radius (fst (Player.eatBot this bot))
  /\ Player.radius this <= Player.radius (fst (Player.eatPlayer this other)).
Proof.
  intro Hr. simpl.
  pose proof (sqrt_sum_ge_l (Player.radius this) FOOD_RADIUS Hr) as Hf.
  pose proof (sqrt_sum_ge_l (Player.radius this) (Bot.radius bot) Hr) as Hb.
  pose proof (sqrt_sum_ge_l (Player.radius this) (Player.radius other) Hr) as Hp.
  repeat split; lra.
Qed.

(** No meal shrinks the consumer: from a non-negative radius, [eatFood],
    [eatBot] and [eatPlayer] each leave a radius at least as large, and after
    [eatBot] or [eatPlayer] the consumer is at least as large as a target of
    non-negative radius was. *)
Theorem eat_never_shrinks (FOOD_RADIUS : R) (this other : Player.t)
    (food : Food.t) (bot : Bot.t) :
  0 <= Player.radius this ->
  Player.radius this <= Player.radius (fst (Player.eatFood FOOD_RADIUS this food))
  /\ Player.radius this <= Player.radius (fst (Player.eatBot this bot))
  /\ Player.radius this <= Player.radius (fst (Player.eatPlayer this other))
  /\ (0 <= Bot.radius bot ->
      Bot.radius bot <= Player.radius (fst (Player.eatBot this bot)))
  /\ (0 <= Player.radius other ->
      Player.radius other <= Player.radius (fst (Player.eatPlayer this other))).
Proof.
  intro Hr.
  destruct (eat_grows_aux FOOD_RADIUS this other food bot Hr) as (Hf & Hb & Hp).
  repeat split; try assumption.
  - intro H. simpl.
    pose proof (sqrt_sum_ge_r (Player.radius this) (Bot.radius bot) H). lra.
  - intro H. simpl. apply sqrt_sum_ge_r. assumption.
Qed.

Lemma eat_never_shrinks_witness :
  Player.radius (playerAt 0 0 40)
  <= Player.radius (fst (Player.eatPlayer (playerAt 0 0 40) rival)).
Proof.
  apply (eat_never_shrinks 4 (playerAt 0 0 40) rival
           (Food.mk (mkPoint 0 0) false) (Bot.mk (mkPoint 0 0) 20 false)).
  simpl. lra.
Defined.

(** A target of radius zero: [eatFood] with [FOOD_RADIUS = 0] and [eatBot] on
    a bot of radius 0 still multiply a non-negative radius by 1.002, while
    [eatPlayer] on a player of radius 0 leaves it as it is. *)
Theorem eat_zero_radius (this other : Player.t) (food : Food.t) (bot : Bot.t) :
  0 <= Player.radius this ->
  Bot.radius bot = 0 ->
  Player.radius other = 0 ->
  Player.radius (fst (Player.eatFood 0 this food)) = Player.radius this * 1.002
  /\ Player.radius (fst (Player.eatBot this bot)) = Player.radius this * 1.002
  /\ Player.radius (fst (Player.eatPlayer this other)) = Player.radius this.
Proof.
  intros Hr Hb Ho. simpl. rewrite Hb, Ho.
  replace (Player.radius this * Player.radius this + 0 * 0)
    with (Player.radius this * Player.radius this) by lra.
  rewrite sqrt_square by assumption. repeat split; reflexivity.
Qed.

Lemma eat_zero_radius_witness :
  Player.radius (fst (Player.eatFood 0 (playerAt 0 0 40) (Food.mk (mkPoint 0 0) false)))
  = Player.radius (playerAt 0 0 40) * 1.002.
Proof.
  apply (eat_zero_radius (playerAt 0 0 40)
           (Player.new WORLD_SIZE None 0 0 0 0)
           (Food.mk (mkPoint 0 0) false) (Bot.mk (mkPoint 0 0) 0 false)).
  - simpl. lra.
  - reflexivity.
  - reflexivity.
Defined.

Lemma canEatFood_grown (this : Player.t) (r : R) (f : Food.t) :
  Player.canEatFood this f = true ->
  0 <= Player.radius this -> Player.radius this <= r ->
  Player.canEatFood (Player.set_radius this r) f = true.
Proof.
  unfold Player.canEatFood; simpl. intros H H0 Hle.
  destruct (Food.destroyed f); [discriminate |].
  apply leb_true_iff in H. apply leb_true_iff. nra.
Qed.

Lemma canEatBot_grown (this : Player.t) (r : R) (b : Bot.t) :
  Player.canEatBot this b = true ->
  0 <= Player.radius this -> Player.radius this <= r ->
  Player.canEatBot (Player.set_radius this r) b = true.
Proof.
  unfold Player.canEatBot; simpl. intros H H0 Hle.
  destruct (Bot.destroyed b); [discriminate |].
  apply leb_true_iff in H. apply leb_true_iff. nra.
Qed.

(** Growing keeps what was in reach: a food or a bot that a consumer of
    non-negative radius can eat can still be eaten after the consumer has
    eaten another food, bot or player; and the target just eaten cannot be
    eaten again by anyone. *)
Theorem eating_keeps_reach (FOOD_RADIUS : R) (this other : Player.t)
    (food0 : Food.t) (bot0 : Bot.t) (f : Food.t) (b : Bot.t) :
  0 <= Player.radius this ->
  (Player.canEatFood this f = true ->
     Player.canEatFood (fst (Player.eatFood FOOD_RADIUS this food0)) f = true
     /\ Player.canEatFood (fst (Player.eatBot this bot0)) f = true
     /\ Player.canEatFood (fst (Player.eatPlayer this other)) f = true)
  /\ (Player.canEatBot this b = true ->
     Player.canEatBot (fst (Player.eatFood FOOD_RADIUS this food0)) b = true
     /\ Player.canEatBot (fst (Player.eatBot this bot0)) b = true
     /\ Player.canEatBot (fst (Player.eatPlayer this other)) b = true)
  /\ (forall anyone : Player.t,
        Player.canEatFood anyone (snd (Player.eatFood FOOD_RADIUS this food0)) = false
        /\ Player.canEatBot anyone (snd (Player.eatBot this bot0)) = false).
Proof.
  intro Hr.
  destruct (eat_grows_aux FOOD_RADIUS this other food0 bot0 Hr) as (Hf & Hb & Hp).
  repeat split.
  - apply canEatFood_grown; assumption.
  - apply canEatFood_grown; assumption.
  - apply canEatFood_grown; assumption.
  - apply canEatBot_grown; assumption.
  - apply canEatBot_grown; assumption.
  - apply canEatBot_grown; assumption.
Qed.

Lemma eating_keeps_reach_witness :
  Player.canEatFood
    (fst (Player.eatPlayer (playerAt 5000 5000 40) rival))
    (Food.mk (mkPoint 5000 5000) false) = true.
Proof.
  apply (eating_keeps_reach 4 (playerAt 5000 5000 40) rival
           (Food.mk (mkPoint 0 0) false) (Bot.mk (mkPoint 0 0) 20 false)
           (Food.mk (mkPoint 5000 5000) false) (Bot.mk (mkPoint 0 0) 20 false)).
  - simpl. lra.
  - apply canEatFood_same_center; reflexivity.
Defined.

(** ** Further properties of the movement *)

(** [moveTowards] writes [pos] and nothing else: the radius, the identity,
    the base radius, the colour, the world bounds and the destroyed flag are
    the same after the call, wherever the pointer is. *)
Theorem moveTowards_only_moves (this : Player.t) (screen : Rectangle.t)
    (x0 y0 : R) :
  let moved := Player.moveTowards this screen x0 y0 in
  Player.radius moved = Player.radius this
  /\ Player.id moved = Player.id this
  /\ Player.baseRadius moved = Player.baseRadius this
  /\ Player.color moved = Player.color this
  /\ Player.worldBounds moved = Player.worldBounds this
  /\ Player.destroyed moved = Player.destroyed this.
Proof.
  unfold Player.moveTowards.
  destruct (ltb 3 _); simpl; repeat split; reflexivity.
Qed.

Lemma clamp_nonexpansive (a s hi : R) :
  0 <= a <= hi ->
  (Rmax 0 (Rmin (a + s) hi) - a) * (Rmax 0 (Rmin (a + s) hi) - a) <= s * s.
Proof.
  intros [H0 H1]. unfold Rmax, Rmin.
  destruct (Rle_dec (a + s) hi); destruct (Rle_dec 0 _); nra.
Qed.

Lemma clamp_forward (a s hi : R) :
  0 <= a <= hi -> 0 <= s -> a <= Rmax 0 (Rmin (a + s) hi).
Proof.
  intros [H0 H1] Hs. unfold Rmax, Rmin.
  destruct (Rle_dec (a + s) hi); destruct (Rle_dec 0 _); lra.
Qed.

Lemma clamp_backward (a s hi : R) :
  0 <= a <= hi -> s <= 0 -> Rmax 0 (Rmin (a + s) hi) <= a.
Proof.
  intros [H0 H1] Hs. unfold Rmax, Rmin.
  destruct (Rle_dec (a + s) hi); destruct (Rle_dec 0 _); lra.
Qed.

Lemma distance_same (p : Point) : distance p p = 0.
Proof.
  unfold distance.
  replace ((x p - x p) * (x p - x p) + (y p - y p) * (y p - y p)) with 0 by lra.
  apply sqrt_0.
Qed.

Lemma speed_le_cap (delta maxDistance radius : R) :
  0 <= delta -> 0 < maxDistance -> 0 < radius ->
  Rmin (delta / maxDistance * 2) 1 * Player.velocityMagnitude / sqrt (radius / 20)
  <= Player.velocityMagnitude / sqrt (radius / 20).
Proof.
  intros Hd Hm Hr. unfold Player.velocityMagnitude, Rdiv.
  assert (Hs : 0 < sqrt (radius * / 20)) by (apply sqrt_lt_R0; lra).
  apply Rmult_le_compat_r.
  - left. apply Rinv_0_lt_compat. assumption.
  - pose proof (Rmin_r (delta * / maxDistance * 2) 1). lra.
Qed.

Lemma pointerDelta_nonneg (screen : Rectangle.t) (x0 y0 : R) :
  0 <= pointerDelta screen x0 y0.
Proof. unfold pointerDelta. apply sqrt_pos. Qed.

(** Speed limit: a player of positive radius that is inside the world moves,
    in one [moveTowards], by at most [velocityMagnitude / sqrt (radius / 20)],
    and so by at most [velocityMagnitude = 10] once its radius is 20 or
    more. *)
Theorem moveTowards_speed_limit (this : Player.t) (screen : Rectangle.t)
    (x0 y0 : R) :
  inBounds (Player.worldBounds this) (Player.pos this) ->
  0 < Player.radius this ->
  0 < Player.calculateMaxDistance screen ->
  distance (Player.pos this) (Player.pos (Player.moveTowards this screen x0 y0))
  <= Player.velocityMagnitude / sqrt (Player.radius this / 20)
  /\ (20 <= Player.radius this ->
      distance (Player.pos this)
               (Player.pos (Player.moveTowards this screen x0 y0))
      <= Player.velocityMagnitude).
Proof.
  intros [Hx Hy] Hr Hm.
  assert (Hs : 0 < sqrt (Player.radius this / 20)) by (apply sqrt_lt_R0; lra).
  assert (Hcap : 0 < Player.velocityMagnitude / sqrt (Player.radius this / 20)).
  { apply Rdiv_lt_0_compat; [unfold Player.velocityMagnitude; lra | assumption]. }
  assert (Hmain :
    distance (Player.pos this) (Player.pos (Player.moveTowards this screen x0 y0))
    <= Player.velocityMagnitude / sqrt (Player.radius this / 20)).
  { destruct (Rlt_dec 3 (pointerDelta screen x0 y0)) as [Hmove | Hstill].
    - rewrite moveTowards_moving by assumption. cbv zeta.
      set (speed := Rmin _ 1 * Player.velocityMagnitude / _).
      set (dx := x0 - Rectangle.width screen / 2).
      set (dy := y0 - Rectangle.height screen / 2).
      assert (Hspeed : 0 <= speed).
      { apply speed_nonneg; try assumption. apply pointerDelta_nonneg. }
      assert (Hle : speed
                    <= Player.velocityMagnitude / sqrt (Player.radius this / 20)).
      { apply speed_le_cap; try assumption. apply pointerDelta_nonneg. }
      apply Rle_trans with speed; [| assumption].
      assert (Hmag : sqrt ((dx / pointerDelta screen x0 y0 * speed)
                           * (dx / pointerDelta screen x0 y0 * speed)
                           + (dy / pointerDelta screen x0 y0 * speed)
                             * (dy / pointerDelta screen x0 y0 * speed))
                     = speed).
      { unfold pointerDelta. fold dx dy.
        apply sqrt_sum_squares_scaled; [| assumption].
        change (0 < pointerDelta screen x0 y0). lra. }
      pose proof (clamp_nonexpansive (x (Player.pos this))
                    (dx / pointerDelta screen x0 y0 * speed)
                    (width (Player.worldBounds this)) Hx) as Hcx.
      pose proof (clamp_nonexpansive (y (Player.pos this))
                    (dy / pointerDelta screen x0 y0 * speed)
                    (height (Player.worldBounds this)) Hy) as Hcy.
      unfold distance; simpl.
      eapply Rle_trans; [| right; exact Hmag].
      apply sqrt_le_1_alt. lra.
    - rewrite moveTowards_still by lra. rewrite distance_same. lra. }
  split; [exact Hmain |].
  intro H20. apply Rle_trans with (1 := Hmain).
  assert (H1 : 1 <= sqrt (Player.radius this / 20)).
  { rewrite <- sqrt_1. apply sqrt_le_1_alt. lra. }
  unfold Player.velocityMagnitude, Rdiv.
  rewrite <- (Rmult_1_r 10) at 2. apply Rmult_le_compat_l; [lra |].
  rewrite <- Rinv_1. apply Rinv_le_contravar; lra.
Qed.

Lemma moveTowards_speed_limit_witness :
  distance (Player.pos (playerAt 5000 5000 20))
           (Player.pos (Player.moveTowards (playerAt 5000 5000 20) screen800 800 300))
  <= Player.velocityMagnitude.
Proof.
  apply (moveTowards_speed_limit (playerAt 5000 5000 20) screen800 800 300).
  - unfold inBounds; simpl. lra.
  - simpl. lra.
  - rewrite calculateMaxDistance_800_600. lra.
  - simpl. lra.
Defined.

(** Direction: a player of positive radius inside the world never moves
    against the pointer: with the pointer right of (left of, below, above)
    the centre of the viewport its [x] (or [y]) does not decrease (increase). *)
Theorem moveTowards_direction (this : Player.t) (screen : Rectangle.t)
    (x0 y0 : R) :
  inBounds (Player.worldBounds this) (Player.pos this) ->
  0 < Player.radius this ->
  0 < Player.calculateMaxDistance screen ->
  let moved := Player.pos (Player.moveTowards this screen x0 y0) in
  (Rectangle.width screen / 2 <= x0 -> x (Player.pos this) <= x moved)
  /\ (x0 <= Rectangle.width screen / 2 -> x moved <= x (Player.pos this))
  /\ (Rectangle.height screen / 2 <= y0 -> y (Player.pos this) <= y moved)
  /\ (y0 <= Rectangle.height screen / 2 -> y moved <= y (Player.pos this)).
Proof.
  intros [Hx Hy] Hr Hm moved. unfold moved.
  destruct (Rlt_dec 3 (pointerDelta screen x0 y0)) as [Hmove | Hstill].
  - rewrite moveTowards_moving by assumption. cbv zeta. simpl.
    set (speed := Rmin _ 1 * Player.velocityMagnitude / _).
    assert (Hspeed : 0 <= speed).
    { apply speed_nonneg; try assumption. apply pointerDelta_nonneg. }
    assert (Hinv : 0 < / pointerDelta screen x0 y0)
      by (apply Rinv_0_lt_compat; lra).
    repeat split; intro Hdir.
    + apply clamp_forward; [assumption |]. unfold Rdiv.
      apply Rmult_le_pos; [| assumption]. apply Rmult_le_pos; lra.
    + apply clamp_backward; [assumption |]. unfold Rdiv.
      assert (0 <= (Rectangle.width screen * / 2 - x0)
                   * / pointerDelta screen x0 y0 * speed).
      { apply Rmult_le_pos; [| assumption]. apply Rmult_le_pos; lra. }
      lra.
    + apply clamp_forward; [assumption |]. unfold Rdiv.
      apply Rmult_le_pos; [| assumption]. apply Rmult_le_pos; lra.
    + apply clamp_backward; [assumption |]. unfold Rdiv.
      assert (0 <= (Rectangle.height screen * / 2 - y0)
                   * / pointerDelta screen x0 y0 * speed).
      { apply Rmult_le_pos; [| assumption]. apply Rmult_le_pos; lra. }
      lra.
  - rewrite moveTowards_still by lra. repeat split; intro; lra.
Qed.

Lemma moveTowards_direction_witness :
  x (Player.pos (playerAt 5000 5000 20))
  <= x (Player.pos (Player.moveTowards (playerAt 5000 5000 20) screen800 800 300)).
Proof.
  apply (moveTowards_direction (playerAt 5000 5000 20) screen800 800 300).
  - unfold inBounds; simpl. lra.
  - simpl. lra.
  - rewrite calculateMaxDistance_800_600. lra.
  - simpl. lra.
Defined.

(** [calculateMaxDistance] is half the diagonal of the screen, and a pointer
    anywhere on the screen is at most that far from its centre. *)
Theorem pointer_within_max_distance (screen : Rectangle.t) (x0 y0 : R) :
  Player.calculateMaxDistance screen
  = sqrt (Rectangle.width screen * Rectangle.width screen
          + Rectangle.height screen * Rectangle.height screen) / 2
  /\ (0 <= x0 <= Rectangle.width screen ->
      0 <= y0 <= Rectangle.height screen ->
      pointerDelta screen x0 y0 <= Player.calculateMaxDistance screen).
Proof.
  split.
  - unfold Player.calculateMaxDistance.
    set (w := Rectangle.width screen). set (h := Rectangle.height screen).
    replace (w / 2 * (w / 2) + h / 2 * (h / 2))
      with ((w * w + h * h) * (/ 2 * / 2)) by field.
    rewrite sqrt_mult_alt by nra.
    rewrite sqrt_square by lra. reflexivity.
  - intros Hx Hy. unfold pointerDelta, Player.calculateMaxDistance.
    apply sqrt_le_1_alt. nra.
Qed.

(** ** Further properties of the camera *)

(** [lerp] with a weight in [[0, 1]] stays between its two ends, which it
    reaches at weights 0 and 1. *)
Theorem lerp_between (a b t : R) :
  0 <= t <= 1 ->
  Rmin a b <= lerp a b t <= Rmax a b
  /\ lerp a b 0 = a
  /\ lerp a b 1 = b.
Proof.
  intros [H0 H1]. unfold lerp, Rmin, Rmax.
  destruct (Rle_dec a b); repeat split; nra.
Qed.

Lemma lerp_between_witness : Rmin 1 0.1 <= lerp 1 0.1 0.05 <= Rmax 1 0.1.
Proof. apply (lerp_between 1 0.1 0.05). lra. Defined.

Lemma exp_50_gt_80 : 80 < exp 50.
Proof.
  replace 50 with (25 + 25) by lra. rewrite exp_plus.
  pose proof (exp_ineq1 25 ltac:(lra)). nra.
Qed.

Lemma ln_lt_50 (r : R) : 0 < r -> r < 80 -> ln r < 50.
Proof.
  intros H0 H80. rewrite <- (ln_exp 50). apply ln_increasing; [assumption |].
  pose proof exp_50_gt_80. lra.
Qed.

Lemma zoom_one (v : R) : 1 <= v -> Rmax 0.1 (Rmin 1 v) = 1.
Proof.
  intro H. rewrite Rmin_left by assumption. apply Rmax_right. lra.
Qed.

Lemma zoom_floor (v : R) : v <= 0.1 -> Rmax 0.1 (Rmin 1 v) = 0.1.
Proof.
  intro H. rewrite Rmin_right by lra. apply Rmax_left. assumption.
Qed.

Lemma zoom_range (v : R) : 0.1 <= Rmax 0.1 (Rmin 1 v) <= 1.
Proof.
  split; [apply Rmax_l |]. apply Rmax_lub; [lra | apply Rmin_l].
Qed.

(** The plateaus of the target zoom: it is 1 for every radius in [(1, 80)]
    (the logarithmic branch never goes below 1) and in [(80, 180]], it is
    [100 / (radius - 80)] on [[180, 1080]], it is 0.1 from 1080 on, and it
    is 0.1 for a radius in [(0, 1)], whose logarithm is negative. *)
Theorem targetZoom_plateaus (r : R) :
  (1 < r < 80 -> targetZoom r = 1)
  /\ (80 < r <= 180 -> targetZoom r = 1)
  /\ (180 <= r <= 1080 -> targetZoom r = 100 / (r - 80))
  /\ (1080 <= r -> targetZoom r = 0.1)
  /\ (0 < r < 1 -> targetZoom r = 0.1).
Proof.
  repeat split.
  - intros [H1 H80]. rewrite targetZoom_below by lra. apply zoom_one.
    assert (Hpos : 0 < ln r) by (rewrite <- ln_1; apply ln_increasing; lra).
    pose proof (ln_lt_50 r ltac:(lra) H80) as H50.
    apply Rmult_le_reg_r with (ln r); [assumption |].
    unfold Rdiv. rewrite Rmult_assoc, Rinv_l by lra. lra.
  - intros [H80 H180]. rewrite targetZoom_above by lra. apply zoom_one.
    apply Rmult_le_reg_r with (r - 80); [lra |].
    unfold Rdiv. rewrite Rmult_assoc, Rinv_l by lra. lra.
  - intros [H180 H1080]. rewrite targetZoom_above by lra.
    assert (Hlo : 0.1 <= 100 / (r - 80)).
    { apply Rmult_le_reg_r with (r - 80); [lra |].
      unfold Rdiv. rewrite Rmult_assoc, Rinv_l by lra. lra. }
    assert (Hhi : 100 / (r - 80) <= 1).
    { apply Rmult_le_reg_r with (r - 80); [lra |].
      unfold Rdiv. rewrite Rmult_assoc, Rinv_l by lra. lra. }
    rewrite Rmin_right by assumption. apply Rmax_right. assumption.
  - intro H1080. rewrite targetZoom_above by lra. apply zoom_floor.
    apply Rmult_le_reg_r with (r - 80); [lra |].
    unfold Rdiv. rewrite Rmult_assoc, Rinv_l by lra. lra.
  - intros [H0 H1]. rewrite targetZoom_below by lra. apply zoom_floor.
    assert (Hneg : ln r < 0) by (rewrite <- ln_1; apply ln_increasing; lra).
    assert (Hinv : / ln r < 0) by (apply Rinv_lt_0_compat; assumption).
    unfold Rdiv. nra.
Qed.

(** ** Further properties of the game loop *)

Lemma forEach_preorder {A : Type} (body : Loop -> A -> Loop * A)
    (rel : Loop -> Loop -> Prop) :
  (forall s, rel s s) ->
  (forall s1 s2 s3, rel s1 s2 -> rel s2 s3 -> rel s1 s3) ->
  (forall s a, rel s (fst (body s a))) ->
  forall l s, rel s (fst (forEach body s l)).
Proof.
  intros Hrefl Htrans Hbody l. induction l as [| a l IH]; intro s; simpl.
  - apply Hrefl.
  - specialize (Hbody s a). destruct (body s a) as [s1 a1]. simpl in Hbody.
    specialize (IH s1). destruct (forEach body s1 l) as [s2 l1]. simpl in *.
    eapply Htrans; eassumption.
Qed.

Lemma forEach_Forall2 {A : Type} (body : Loop -> A -> Loop * A)
    (step : A -> A -> Prop) :
  (forall s a, step a (snd (body s a))) ->
  forall l s, Forall2 step l (snd (forEach body s l)).
Proof.
  intros Hbody l. induction l as [| a l IH]; intro s; simpl.
  - constructor.
  - specialize (Hbody s a). destruct (body s a) as [s1 a1]. simpl in Hbody.
    specialize (IH s1). destruct (forEach body s1 l) as [s2 l1]. simpl in *.
    constructor; assumption.
Qed.

Lemma grows_refl (s : Loop) : grows s s.
Proof. intro H. split; [reflexivity | lra]. Qed.

Lemma grows_trans (s1 s2 s3 : Loop) : grows s1 s2 -> grows s2 s3 -> grows s1 s3.
Proof.
  intros H12 H23 H0. destruct (H12 H0) as [Hp1 Hr1].
  destruct (H23 ltac:(lra)) as [Hp2 Hr2]. split; [congruence | lra].
Qed.

Lemma visitFood_grows (FOOD_RADIUS : R) (s : Loop) (f : Food.t) :
  grows s (fst (visitFood FOOD_RADIUS s f)).
Proof.
  destruct s as [this sent]. unfold visitFood.
  destruct (Player.canEatFood this f); [| apply grows_refl].
  intro H0. simpl in *. split; [reflexivity |].
  pose proof (sqrt_sum_ge_l (Player.radius this) FOOD_RADIUS H0). lra.
Qed.

Lemma visitPlayer_grows (canEatPlayer : Player.t -> Player.t -> bool)
    (s : Loop) (p : Player.t) :
  grows s (fst (visitPlayer canEatPlayer s p)).
Proof.
  destruct s as [this sent]. unfold visitPlayer.
  destruct (canEatPlayer this p); [| apply grows_refl].
  destruct (Player.id p) as [i |]; [| apply grows_refl].
  intro H0. simpl in *. split; [reflexivity |].
  apply sqrt_sum_ge_l. assumption.
Qed.

Lemma moveTowards_radius (this : Player.t) (screen : Rectangle.t) (x0 y0 : R) :
  Player.radius (Player.moveTowards this screen x0 y0) = Player.radius this.
Proof. unfold Player.moveTowards. destruct (ltb 3 _); reflexivity. Qed.

Lemma afterMovement_radius (screen : Rectangle.t) (pointer : Point) (g : Game) :
  Player.radius (afterMovement screen pointer g) = Player.radius (player g).
Proof.
  unfold afterMovement. destruct (NetworkManager.isConnected _);
    [apply moveTowards_radius | reflexivity].
Qed.

(** The scans of a tick, from the player as [afterMovement] leaves it. *)
Lemma tick_from_afterMovement (FOOD_RADIUS : R)
    (canEatPlayer : Player.t -> Player.t -> bool) (screen : Rectangle.t)
    (pointer : Point) (g : Game) :
  let g' := tick FOOD_RADIUS canEatPlayer screen pointer g in
  exists (sent0 : list Message) (s1 : Loop),
    sent0 = NetworkManager.sent (network g)
            ++ (if NetworkManager.isConnected (network g)
                then [SendMovement (x (Player.pos (afterMovement screen pointer g)))
                                   (y (Player.pos (afterMovement screen pointer g)))]
                else [])
    /\ forEach (visitFood FOOD_RADIUS) (afterMovement screen pointer g, sent0)
               (NetworkManager.foods (network g))
       = (s1, NetworkManager.foods (network g'))
    /\ forEach (visitPlayer canEatPlayer) s1 (NetworkManager.players (network g))
       = ((player g', NetworkManager.sent (network g')),
          NetworkManager.players (network g')).
Proof.
  intro g'.
  destruct (tick_scans FOOD_RADIUS canEatPlayer screen pointer g)
    as [s1 [Hfoods [Hplayers _]]].
  fold g' in Hfoods, Hplayers.
  eexists. exists s1. split; [reflexivity |]. split; [| exact Hplayers].
  rewrite <- Hfoods. unfold afterMovement.
  destruct (NetworkManager.isConnected (network g)).
  - reflexivity.
  - rewrite app_nil_r. reflexivity.
Qed.

(** The radius of the local player never decreases over a tick: from a
    non-negative radius, the radius after the tick is at least the radius
    before it, whatever the foods, the players and the connection are. *)
Theorem tick_radius_never_decreases (FOOD_RADIUS : R)
    (canEatPlayer : Player.t -> Player.t -> bool) (screen : Rectangle.t)
    (pointer : Point) (g : Game) :
  0 <= Player.radius (player g) ->
  Player.radius (player g)
  <= Player.radius (player (tick FOOD_RADIUS canEatPlayer screen pointer g)).
Proof.
  intro H0.
  destruct (tick_from_afterMovement FOOD_RADIUS canEatPlayer screen pointer g)
    as (sent0 & s1 & _ & Hfoods & Hplayers).
  pose proof (forEach_preorder (visitFood FOOD_RADIUS) grows grows_refl
                grows_trans (visitFood_grows FOOD_RADIUS)
                (NetworkManager.foods (network g))
                (afterMovement screen pointer g, sent0)) as H1.
  rewrite Hfoods in H1.
  pose proof (forEach_preorder (visitPlayer canEatPlayer) grows grows_refl
                grows_trans (visitPlayer_grows canEatPlayer)
                (NetworkManager.players (network g)) s1) as H2.
  rewrite Hplayers in H2.
  pose proof (grows_trans _ _ _ H1 H2) as H. unfold grows in H. simpl in H.
  rewrite afterMovement_radius in H. apply H. assumption.
Qed.

Lemma tick_radius_never_decreases_witness :
  Player.radius (player duelGame)
  <= Player.radius (player (tick 4 canConsume screen800 (mkPoint 400 300) duelGame)).
Proof.
  apply (tick_radius_never_decreases 4 canConsume screen800 (mkPoint 400 300)
           duelGame).
  simpl. lra.
Defined.

Lemma forEach_length {A : Type} (body : Loop -> A -> Loop * A) (l : list A) :
  forall s, length (snd (forEach body s l)) = length l.
Proof.
  induction l as [| a l IH]; intro s; simpl; [reflexivity |].
  destruct (body s a) as [s1 a1]. specialize (IH s1).
  destruct (forEach body s1 l) as [s2 l1]. simpl in *. congruence.
Qed.

Lemma sameIdentity_refl (p : Player.t) : sameIdentity p p.
Proof. repeat split. Qed.

Lemma sameIdentity_trans (p1 p2 p3 : Player.t) :
  sameIdentity p1 p2 -> sameIdentity p2 p3 -> sameIdentity p1 p3.
Proof.
  intros (A1 & A2 & A3 & A4 & A5) (B1 & B2 & B3 & B4 & B5).
  repeat split; congruence.
Qed.

Lemma visitFood_sameIdentity (FOOD_RADIUS : R) (s : Loop) (f : Food.t) :
  sameIdentity (fst s) (fst (fst (visitFood FOOD_RADIUS s f))).
Proof.
  destruct s as [this sent]. unfold visitFood.
  destruct (Player.canEatFood this f); repeat split.
Qed.

Lemma visitPlayer_sameIdentity (canEatPlayer : Player.t -> Player.t -> bool)
    (s : Loop) (p : Player.t) :
  sameIdentity (fst s) (fst (fst (visitPlayer canEatPlayer s p))).
Proof.
  destruct s as [this sent]. unfold visitPlayer.
  destruct (canEatPlayer this p); [| repeat split].
  destruct (Player.id p); repeat split.
Qed.

Lemma afterMovement_sameIdentity (screen : Rectangle.t) (pointer : Point)
    (g : Game) :
  sameIdentity (player g) (afterMovement screen pointer g).
Proof.
  unfold afterMovement. destruct (NetworkManager.isConnected _);
    [| apply sameIdentity_refl].
  unfold Player.moveTowards. destruct (ltb 3 _); repeat split.
Qed.

(** What a tick leaves alone: the identity, base radius, colour, world bounds
    and destroyed flag of the local player, the connection state, and the
    number of foods and of remote players held by the network collaborator
    (the loop removes no entry; it only marks entities destroyed). *)
Theorem tick_frame (FOOD_RADIUS : R)
    (canEatPlayer : Player.t -> Player.t -> bool) (screen : Rectangle.t)
    (pointer : Point) (g : Game) :
  let g' := tick FOOD_RADIUS canEatPlayer screen pointer g in
  sameIdentity (player g) (player g')
  /\ NetworkManager.connected (network g') = NetworkManager.connected (network g)
  /\ length (NetworkManager.foods (network g'))
     = length (NetworkManager.foods (network g))
  /\ length (NetworkManager.players (network g'))
     = length (NetworkManager.players (network g)).
Proof.
  intro g'.
  destruct (tick_from_afterMovement FOOD_RADIUS canEatPlayer screen pointer g)
    as (sent0 & s1 & _ & Hfoods & Hplayers).
  destruct (tick_scans FOOD_RADIUS canEatPlayer screen pointer g)
    as (_ & _ & _ & Hconn).
  fold g' in Hfoods, Hplayers, Hconn.
  pose proof (forEach_preorder (visitFood FOOD_RADIUS)
                (fun s s' => sameIdentity (fst s) (fst s'))
                (fun s => sameIdentity_refl (fst s))
                (fun s1 s2 s3 => sameIdentity_trans (fst s1) (fst s2) (fst s3))
                (visitFood_sameIdentity FOOD_RADIUS)
                (NetworkManager.foods (network g))
                (afterMovement screen pointer g, sent0)) as H1.
  pose proof (forEach_preorder (visitPlayer canEatPlayer)
                (fun s s' => sameIdentity (fst s) (fst s'))
                (fun s => sameIdentity_refl (fst s))
                (fun s1 s2 s3 => sameIdentity_trans (fst s1) (fst s2) (fst s3))
                (visitPlayer_sameIdentity canEatPlayer)
                (NetworkManager.players (network g)) s1) as H2.
  pose proof (forEach_length (visitFood FOOD_RADIUS)
                (NetworkManager.foods (network g))
                (afterMovement screen pointer g, sent0)) as L1.
  pose proof (forEach_length (visitPlayer canEatPlayer)
                (NetworkManager.players (network g)) s1) as L2.
  rewrite Hfoods in H1, L1. rewrite Hplayers in H2, L2. simpl in *.
  split.
  - eapply sameIdentity_trans; [apply afterMovement_sameIdentity |].
    eapply sameIdentity_trans; eassumption.
  - repeat split; assumption.
Qed.

Lemma visitFood_foodStep (FOOD_RADIUS : R) (s : Loop) (f : Food.t) :
  foodStep f (snd (visitFood FOOD_RADIUS s f)).
Proof.
  destruct s as [this sent]. unfold visitFood, foodStep.
  destruct (Player.canEatFood this f) eqn:Hcan; simpl.
  - right. split; [| reflexivity].
    unfold Player.canEatFood in Hcan.
    destruct (Food.destroyed f); [discriminate | reflexivity].
  - left. reflexivity.
Qed.

Lemma visitPlayer_playerStep (canEatPlayer : Player.t -> Player.t -> bool)
    (s : Loop) (p : Player.t) :
  playerStep p (snd (visitPlayer canEatPlayer s p)).
Proof.
  destruct s as [this sent]. unfold visitPlayer, playerStep.
  destruct (canEatPlayer this p); [| left; reflexivity].
  destruct (Player.id p); right; reflexivity.
Qed.

(** A tick creates, moves, resizes and revives nothing in the collections:
    entry by entry, a food after the tick is the food before it, or that
    food, not destroyed before, now destroyed; a remote player after the
    tick is the player before it, possibly marked destroyed, with the same
    position, radius and identity. *)
Theorem tick_entities_only_destroyed (FOOD_RADIUS : R)
    (canEatPlayer : Player.t -> Player.t -> bool) (screen : Rectangle.t)
    (pointer : Point) (g : Game) :
  let g' := tick FOOD_RADIUS canEatPlayer screen pointer g in
  Forall2 foodStep (NetworkManager.foods (network g))
          (NetworkManager.foods (network g'))
  /\ Forall2 playerStep (NetworkManager.players (network g))
             (NetworkManager.players (network g')).
Proof.
  intro g'.
  destruct (tick_from_afterMovement FOOD_RADIUS canEatPlayer screen pointer g)
    as (sent0 & s1 & _ & Hfoods & Hplayers).
  fold g' in Hfoods, Hplayers.
  pose proof (forEach_Forall2 (visitFood FOOD_RADIUS) foodStep
                (visitFood_foodStep FOOD_RADIUS)
                (NetworkManager.foods (network g))
                (afterMovement screen pointer g, sent0)) as H1.
  pose proof (forEach_Forall2 (visitPlayer canEatPlayer) playerStep
                (visitPlayer_playerStep canEatPlayer)
                (NetworkManager.players (network g)) s1) as H2.
  rewrite Hfoods in H1. rewrite Hplayers in H2. split; assumption.
Qed.

Lemma canEatFood_reach (p q : Player.t) (f : Food.t) :
  Player.canEatFood p f = true ->
  Player.pos q = Player.pos p ->
  0 <= Player.radius p -> Player.radius p <= Player.radius q ->
  Player.canEatFood q f = true.
Proof.
  unfold Player.canEatFood. intros H Hpos H0 Hle.
  destruct (Food.destroyed f); [discriminate |]. rewrite Hpos.
  apply leb_true_iff in H. apply leb_true_iff. nra.
Qed.

Lemma scanFoods_complete (FOOD_RADIUS : R) (p0 : Player.t) (fs : list Food.t) :
  forall s : Loop,
    0 <= Player.radius p0 ->
    Player.pos (fst s) = Player.pos p0 ->
    Player.radius p0 <= Player.radius (fst s) ->
    Forall2 (fun f f' => Player.canEatFood p0 f = true -> Food.destroyed f' = true)
            fs (snd (forEach (visitFood FOOD_RADIUS) s fs)).
Proof.
  induction fs as [| f fs IH]; intros s H0 Hpos Hle; simpl; [constructor |].
  pose proof (visitFood_grows FOOD_RADIUS s f) as Hg.
  destruct (visitFood FOOD_RADIUS s f) as [s1 f1] eqn:Hvisit.
  assert (Hhead : Player.canEatFood p0 f = true -> Food.destroyed f1 = true).
  { intro Hcan. destruct s as [this sent]. simpl in Hpos, Hle.
    pose proof (canEatFood_reach p0 this f Hcan Hpos H0 Hle) as Hcan'.
    rewrite (visitFood_eats FOOD_RADIUS this sent f Hcan') in Hvisit.
    inversion Hvisit; subst. reflexivity. }
  destruct (Hg ltac:(lra)) as [Hpos1 Hle1]. simpl in Hpos1, Hle1.
  specialize (IH s1 H0 ltac:(congruence) ltac:(lra)).
  destruct (forEach (visitFood FOOD_RADIUS) s1 fs) as [s2 fs1]. simpl in *.
  constructor; assumption.
Qed.

(** Nothing in reach is missed: every food that the local player, of
    non-negative radius, can eat when the scans of a tick start (after the
    movement, if connected) is destroyed when the tick ends, however much the
    player has grown in between. *)
Theorem tick_eats_all_in_reach (FOOD_RADIUS : R)
    (canEatPlayer : Player.t -> Player.t -> bool) (screen : Rectangle.t)
    (pointer : Point) (g : Game) :
  0 <= Player.radius (player g) ->
  Forall2 (fun f f' =>
             Player.canEatFood (afterMovement screen pointer g) f = true ->
             Food.destroyed f' = true)
          (NetworkManager.foods (network g))
          (NetworkManager.foods
             (network (tick FOOD_RADIUS canEatPlayer screen pointer g))).
Proof.
  intro H0.
  destruct (tick_from_afterMovement FOOD_RADIUS canEatPlayer screen pointer g)
    as (sent0 & s1 & _ & Hfoods & _).
  pose proof (scanFoods_complete FOOD_RADIUS (afterMovement screen pointer g)
                (NetworkManager.foods (network g))
                (afterMovement screen pointer g, sent0)) as H.
  rewrite Hfoods in H. apply H.
  - rewrite afterMovement_radius. assumption.
  - reflexivity.
  - simpl. lra.
Qed.

Lemma tick_eats_all_in_reach_witness :
  Forall2 (fun f f' =>
             Player.canEatFood
               (afterMovement screen800 (mkPoint 400 300) offlineGame) f = true ->
             Food.destroyed f' = true)
          (NetworkManager.foods (network offlineGame))
          (NetworkManager.foods
             (network (tick 4 canConsume screen800 (mkPoint 400 300) offlineGame))).
Proof.
  apply (tick_eats_all_in_reach 4 canConsume screen800 (mkPoint 400 300)
           offlineGame).
  simpl. lra.
Defined.

Lemma countEatFood_app (a b : list Message) :
  countEatFood (a ++ b) = (countEatFood a + countEatFood b)%nat.
Proof. unfold countEatFood. rewrite filter_app, length_app. reflexivity. Qed.

Lemma scanFoods_count (FOOD_RADIUS : R) (fs : list Food.t) :
  forall s : Loop,
    countEatFood (snd (fst (forEach (visitFood FOOD_RADIUS) s fs)))
    = (countEatFood (snd s)
       + length (newlyDestroyed fs (snd (forEach (visitFood FOOD_RADIUS) s fs))))%nat.
Proof.
  induction fs as [| f fs IH]; intro s; simpl.
  - unfold newlyDestroyed; simpl. lia.
  - destruct s as [this sent].
    destruct (Player.canEatFood this f) eqn:Hcan.
    + rewrite (visitFood_eats FOOD_RADIUS this sent f Hcan).
      specialize (IH (fst (Player.eatFood FOOD_RADIUS this f),
                      sent ++ [SendEatFood (Zfloor (x (Food.pos f)))
                                 (Zfloor (y (Food.pos f)))
                                 (Zfloor (Player.radius
                                    (fst (Player.eatFood FOOD_RADIUS this f))))])).
      destruct (forEach (visitFood FOOD_RADIUS) _ fs) as [s2 fs1].
      simpl in *. rewrite IH, countEatFood_app.
      unfold Player.canEatFood in Hcan.
      destruct (Food.destroyed f) eqn:Hd; [discriminate |].
      unfold newlyDestroyed; simpl. rewrite Hd; simpl.
      unfold countEatFood; simpl. lia.
    + assert (Hvisit : visitFood FOOD_RADIUS (this, sent) f = ((this, sent), f)).
      { unfold visitFood. rewrite Hcan. reflexivity. }
      rewrite Hvisit. specialize (IH (this, sent)).
      destruct (forEach (visitFood FOOD_RADIUS) (this, sent) fs) as [s2 fs1].
      simpl in *. rewrite IH.
      unfold newlyDestroyed; simpl.
      destruct (Food.destroyed f); simpl; reflexivity.
Qed.

Lemma visitPlayer_count (canEatPlayer : Player.t -> Player.t -> bool)
    (s : Loop) (p : Player.t) :
  countEatFood (snd (fst (visitPlayer canEatPlayer s p))) = countEatFood (snd s).
Proof.
  destruct s as [this sent]. unfold visitPlayer.
  destruct (canEatPlayer this p); [| reflexivity].
  destruct (Player.id p); simpl; [| reflexivity].
  rewrite countEatFood_app. unfold countEatFood at 2; simpl. lia.
Qed.

(** One [sendEatFood] per food eaten: over a tick, the number of
    [sendEatFood] calls received by the network collaborator grows by exactly
    the number of foods that were not destroyed before the tick and are
    destroyed after it. *)
Theorem tick_one_intent_per_food (FOOD_RADIUS : R)
    (canEatPlayer : Player.t -> Player.t -> bool) (screen : Rectangle.t)
    (pointer : Point) (g : Game) :
  let g' := tick FOOD_RADIUS canEatPlayer screen pointer g in
  countEatFood (NetworkManager.sent (network g'))
  = (countEatFood (NetworkManager.sent (network g))
     + length (newlyDestroyed (NetworkManager.foods (network g))
                              (NetworkManager.foods (network g'))))%nat.
Proof.
  intro g'.
  destruct (tick_from_afterMovement FOOD_RADIUS canEatPlayer screen pointer g)
    as (sent0 & s1 & Hsent0 & Hfoods & Hplayers).
  fold g' in Hfoods, Hplayers.
  pose proof (scanFoods_count FOOD_RADIUS (NetworkManager.foods (network g))
                (afterMovement screen pointer g, sent0)) as H1.
  rewrite Hfoods in H1. simpl in H1.
  pose proof (forEach_preorder (visitPlayer canEatPlayer)
                (fun s s' => countEatFood (snd s') = countEatFood (snd s))
                (fun s => eq_refl)
                (fun s1 s2 s3 H12 H23 => eq_trans H23 H12)
                (visitPlayer_count canEatPlayer)
                (NetworkManager.players (network g)) s1) as H2.
  rewrite Hplayers in H2. simpl in H2. rewrite H2, H1.
  assert (H0 : countEatFood sent0 = countEatFood (NetworkManager.sent (network g))).
  { rewrite Hsent0, countEatFood_app.
    destruct (NetworkManager.isConnected (network g));
      unfold countEatFood; simpl; lia. }
  rewrite H0. reflexivity.
Qed.

(** A connected tick reports the position it ends with: the calls it adds
    are one [sendMovement], first, carrying the position that the local
    player has when the tick ends, followed by consumption intents only. *)
Theorem tick_connected_reports_position (FOOD_RADIUS : R)
    (canEatPlayer : Player.t -> Player.t -> bool) (screen : Rectangle.t)
    (pointer : Point) (g : Game) :
  NetworkManager.isConnected (network g) = true ->
  let g' := tick FOOD_RADIUS canEatPlayer screen pointer g in
  exists intents : list Message,
    NetworkManager.sent (network g')
    = NetworkManager.sent (network g)
      ++ SendMovement (x (Player.pos (player g'))) (y (Player.pos (player g')))
         :: intents
    /\ forallb isEatIntent intents = true
    /\ Player.pos (player g')
       = Player.pos (Player.moveTowards (player g) screen (x pointer) (y pointer)).
Proof.
  intros Hon g'.
  destruct (tick_from_afterMovement FOOD_RADIUS canEatPlayer screen pointer g)
    as (sent0 & s1 & Hsent0 & Hfoods & Hplayers).
  fold g' in Hfoods, Hplayers.
  pose proof (forEach_extends (visitFood FOOD_RADIUS)
                (visitFood_extends FOOD_RADIUS)
                (NetworkManager.foods (network g))
                (afterMovement screen pointer g, sent0)) as H1.
  rewrite Hfoods in H1.
  pose proof (forEach_extends (visitPlayer canEatPlayer)
                (visitPlayer_extends canEatPlayer)
                (NetworkManager.players (network g)) s1) as H2.
  rewrite Hplayers in H2.
  destruct (extends_trans _ _ _ H1 H2) as [Hpos [intents [Hsent Hall]]].
  simpl in Hpos, Hsent. exists intents.
  rewrite Hsent, Hsent0, Hon, Hpos, <- app_assoc. simpl.
  unfold afterMovement. rewrite Hon. repeat split. assumption.
Qed.

Lemma tick_connected_reports_position_witness :
  exists intents : list Message,
    NetworkManager.sent
      (network (tick 4 canConsume screen800 (mkPoint 400 300) duelGame))
    = NetworkManager.sent (network duelGame)
      ++ SendMovement
           (x (Player.pos
                 (player (tick 4 canConsume screen800 (mkPoint 400 300) duelGame))))
           (y (Player.pos
                 (player (tick 4 canConsume screen800 (mkPoint 400 300) duelGame))))
         :: intents
    /\ forallb isEatIntent intents = true
    /\ Player.pos
         (player (tick 4 canConsume screen800 (mkPoint 400 300) duelGame))
       = Player.pos
           (Player.moveTowards (player duelGame) screen800
              (x (mkPoint 400 300)) (y (mkPoint 400 300))).
Proof.
  apply (tick_connected_reports_position 4 canConsume screen800
           (mkPoint 400 300) duelGame).
  reflexivity.
Defined.

Lemma moveTowards_keeps_in_bounds (this : Player.t) (screen : Rectangle.t)
    (x0 y0 : R) :
  inBounds (Player.worldBounds this) (Player.pos this) ->
  inBounds (Player.worldBounds this)
           (Player.pos (Player.moveTowards this screen x0 y0)).
Proof.
  intros Hin. pose proof Hin as [Hx Hy].
  destruct (Rlt_dec 3 (pointerDelta screen x0 y0)) as [Hmove | Hstill].
  - rewrite moveTowards_moving by assumption. unfold inBounds; simpl.
    split; apply clamped_in_range; lra.
  - rewrite moveTowards_still by lra. assumption.
Qed.

(** The world is closed under ticks: a local player of positive radius that
    is within [[0, width] x [0, height]] of its world bounds before a tick is
    within them after it, connected or not. *)
Theorem tick_keeps_in_bounds (FOOD_RADIUS : R)
    (canEatPlayer : Player.t -> Player.t -> bool) (screen : Rectangle.t)
    (pointer : Point) (g : Game) :
  0 < Player.radius (player g) ->
  inBounds (Player.worldBounds (player g)) (Player.pos (player g)) ->
  let g' := tick FOOD_RADIUS canEatPlayer screen pointer g in
  inBounds (Player.worldBounds (player g')) (Player.pos (player g')).
Proof.
  intros Hradius Hin g'.
  destruct (tick_from_afterMovement FOOD_RADIUS canEatPlayer screen pointer g)
    as (sent0 & s1 & _ & Hfoods & Hplayers).
  fold g' in Hfoods, Hplayers.
  pose proof (forEach_extends (visitFood FOOD_RADIUS)
                (visitFood_extends FOOD_RADIUS)
                (NetworkManager.foods (network g))
                (afterMovement screen pointer g, sent0)) as H1.
  rewrite Hfoods in H1.
  pose proof (forEach_extends (visitPlayer canEatPlayer)
                (visitPlayer_extends canEatPlayer)
                (NetworkManager.players (network g)) s1) as H2.
  rewrite Hplayers in H2.
  destruct (extends_trans _ _ _ H1 H2) as [Hpos _]. simpl in Hpos.
  pose proof (forEach_preorder (visitFood FOOD_RADIUS)
                (fun s s' => sameIdentity (fst s) (fst s'))
                (fun s => sameIdentity_refl (fst s))
                (fun s1 s2 s3 => sameIdentity_trans (fst s1) (fst s2) (fst s3))
                (visitFood_sameIdentity FOOD_RADIUS)
                (NetworkManager.foods (network g))
                (afterMovement screen pointer g, sent0)) as I1.
  pose proof (forEach_preorder (visitPlayer canEatPlayer)
                (fun s s' => sameIdentity (fst s) (fst s'))
                (fun s => sameIdentity_refl (fst s))
                (fun s1 s2 s3 => sameIdentity_trans (fst s1) (fst s2) (fst s3))
                (visitPlayer_sameIdentity canEatPlayer)
                (NetworkManager.players (network g)) s1) as I2.
  rewrite Hfoods in I1. rewrite Hplayers in I2. simpl in I1, I2.
  destruct (sameIdentity_trans _ _ _ I1 I2) as (_ & _ & _ & Hwb & _).
  rewrite Hpos, Hwb.
  unfold afterMovement. destruct (NetworkManager.isConnected (network g)).
  - assert (Hsame : Player.worldBounds
                      (Player.moveTowards (player g) screen (x pointer) (y pointer))
                    = Player.worldBounds (player g)).
    { unfold Player.moveTowards. destruct (ltb 3 _); reflexivity. }
    rewrite Hsame. apply moveTowards_keeps_in_bounds. assumption.
  - assumption.
Qed.

Lemma tick_keeps_in_bounds_witness :
  inBounds
    (Player.worldBounds
       (player (tick 4 canConsume screen800 (mkPoint 800 300) duelGame)))
    (Player.pos (player (tick 4 canConsume screen800 (mkPoint 800 300) duelGame))).
Proof.
  apply (tick_keeps_in_bounds 4 canConsume screen800 (mkPoint 800 300) duelGame).
  - simpl. lra.
  - unfold inBounds; simpl. lra.
Defined.

Lemma forEach_idle {A : Type} (body : Loop -> A -> Loop * A) (s : Loop)
    (l : list A) :
  (forall a, In a l -> body s a = (s, a)) -> forEach body s l = (s, l).
Proof.
  induction l as [| a l IH]; intro H; simpl; [reflexivity |].
  rewrite (H a (or_introl eq_refl)).
  rewrite IH by (intros b Hb; apply H; right; assumption). reflexivity.
Qed.

(** A tick with nothing in reach: when the local player, after its movement,
    can eat none of the foods (destroyed ones included) and none of the
    remote players, the tick leaves the collections as they are, the player
    is the moved player, and the only call made is the [sendMovement] of a
    connected tick. *)
Theorem tick_nothing_in_reach (FOOD_RADIUS : R)
    (canEatPlayer : Player.t -> Player.t -> bool) (screen : Rectangle.t)
    (pointer : Point) (g : Game) :
  (forall f, In f (NetworkManager.foods (network g)) ->
             Player.canEatFood (afterMovement screen pointer g) f = false) ->
  (forall p, In p (NetworkManager.players (network g)) ->
             canEatPlayer (afterMovement screen pointer g) p = false) ->
  let g' := tick FOOD_RADIUS canEatPlayer screen pointer g in
  player g' = afterMovement screen pointer g
  /\ NetworkManager.foods (network g') = NetworkManager.foods (network g)
  /\ NetworkManager.players (network g') = NetworkManager.players (network g)
  /\ NetworkManager.sent (network g')
     = NetworkManager.sent (network g)
       ++ (if NetworkManager.isConnected (network g)
           then [SendMovement (x (Player.pos (afterMovement screen pointer g)))
                              (y (Player.pos (afterMovement screen pointer g)))]
           else []).
Proof.
  intros Hfood Hplayer g'.
  destruct (tick_from_afterMovement FOOD_RADIUS canEatPlayer screen pointer g)
    as (sent0 & s1 & Hsent0 & Hfoods & Hplayers).
  fold g' in Hfoods, Hplayers.
  rewrite forEach_idle in Hfoods.
  2:{ intros f Hf. unfold visitFood. rewrite (Hfood f Hf). reflexivity. }
  inversion Hfoods as [[Hs1 Hf1]]. rewrite <- Hs1 in Hplayers.
  rewrite forEach_idle in Hplayers.
  2:{ intros p Hp. unfold visitPlayer. rewrite (Hplayer p Hp). reflexivity. }
  inversion Hplayers as [[Hp1 Hsent Hps]].
  rewrite <- Hsent0. repeat split; symmetry; assumption.
Qed.

Lemma tick_nothing_in_reach_witness :
  player (tick 4 canConsume screen800 (mkPoint 400 300)
            (mkGame (playerAt 5000 5000 30)
                    (NetworkManager.mk false [Food.mk (mkPoint 0 0) true] [] [])
                    camera0))
  = playerAt 5000 5000 30.
Proof.
  apply (tick_nothing_in_reach 4 canConsume screen800 (mkPoint 400 300)
           (mkGame (playerAt 5000 5000 30)
                   (NetworkManager.mk false [Food.mk (mkPoint 0 0) true] [] [])
                   camera0)).
  - intros f [Hf | []]. subst f. reflexivity.
  - intros p [].
Defined.

Lemma clamped_within (e : Extended) :
  e <> NaN -> 0.1 <= toReal (Math_max 0.1 (Math_min 1 e)) <= 1.
Proof.
  intro H. destruct e as [v | | |]; simpl.
  - apply zoom_range.
  - rewrite Rmax_right by lra. lra.
  - lra.
  - contradiction.
Qed.

Lemma divide_defined (a : R) (e : Extended) :
  0 < a -> e <> NaN -> divide a e <> NaN.
Proof.
  intros Ha He. destruct e as [b | | |]; simpl; try discriminate.
  - destruct (Req_dec_T b 0); [| discriminate].
    apply ltb_true_iff in Ha. rewrite Ha. discriminate.
  - contradiction.
Qed.

Lemma Math_log_defined (r : R) : 0 <= r -> Math_log r <> NaN.
Proof.
  intro H. unfold Math_log.
  assert (Hb : ltb r 0 = false) by (apply ltb_false_iff; assumption).
  rewrite Hb. destruct (Req_dec_T r 0); discriminate.
Qed.

Lemma targetZoom_within (r : R) : 0 <= r -> 0.1 <= targetZoom r <= 1.
Proof.
  intro H. unfold targetZoom, zoom. destruct (ltb r 80); apply clamped_within.
  - apply divide_defined; [lra | apply Math_log_defined; assumption].
  - apply divide_defined; [lra | discriminate].
Qed.

Lemma tick_radius_le (FOOD_RADIUS : R)
    (canEatPlayer : Player.t -> Player.t -> bool) (screen : Rectangle.t)
    (pointer : Point) (g : Game) :
  0 <= Player.radius (player g) ->
  Player.radius (player g)
  <= Player.radius (player (tick FOOD_RADIUS canEatPlayer screen pointer g)).
Proof.
  intro H0.
  destruct (tick_from_afterMovement FOOD_RADIUS canEatPlayer screen pointer g)
    as (sent0 & s1 & _ & Hfoods & Hplayers).
  pose proof (forEach_preorder (visitFood FOOD_RADIUS) grows grows_refl
                grows_trans (visitFood_grows FOOD_RADIUS)
                (NetworkManager.foods (network g))
                (afterMovement screen pointer g, sent0)) as H1.
  rewrite Hfoods in H1.
  pose proof (forEach_preorder (visitPlayer canEatPlayer) grows grows_refl
                grows_trans (visitPlayer_grows canEatPlayer)
                (NetworkManager.players (network g)) s1) as H2.
  rewrite Hplayers in H2.
  pose proof (grows_trans _ _ _ H1 H2) as H. unfold grows in H. simpl in H.
  rewrite afterMovement_radius in H. apply H. assumption.
Qed.

(** The camera scale stays in range: for a local player of positive radius
    (so that the logarithm is defined), if both components of the scale of
    the world are within [[0.1, 1]] before a tick, they are within
    [[0.1, 1]] after it. *)
Theorem tick_scale_in_range (FOOD_RADIUS : R)
    (canEatPlayer : Player.t -> Player.t -> bool) (screen : Rectangle.t)
    (pointer : Point) (g : Game) :
  0 < Player.radius (player g) ->
  0.1 <= x (Container.scale (world g)) <= 1 ->
  0.1 <= y (Container.scale (world g)) <= 1 ->
  let g' := tick FOOD_RADIUS canEatPlayer screen pointer g in
  0.1 <= x (Container.scale (world g')) <= 1
  /\ 0.1 <= y (Container.scale (world g')) <= 1.
Proof.
  intros Hr Hx Hy g'.
  destruct (tick_scale FOOD_RADIUS canEatPlayer screen pointer g) as [Hs _].
  fold g' in Hs. rewrite Hs. simpl.
  assert (Hz : 0.1 <= targetZoom (Player.radius (player g')) <= 1).
  { apply targetZoom_within.
    pose proof (tick_radius_le FOOD_RADIUS canEatPlayer screen pointer g
                  ltac:(lra)) as Hle.
    fold g' in Hle. lra. }
  unfold lerp. split; lra.
Qed.

Lemma tick_scale_in_range_witness :
  0.1 <= x (Container.scale
              (world (tick 4 canConsume screen800 (mkPoint 400 300) duelGame)))
      <= 1
  /\ 0.1 <= y (Container.scale
                 (world (tick 4 canConsume screen800 (mkPoint 400 300) duelGame)))
         <= 1.
Proof.
  apply (tick_scale_in_range 4 canConsume screen800 (mkPoint 400 300) duelGame).
  - simpl. lra.
  - simpl. lra.
  - simpl. lra.
Defined.

(** ** Properties of the background stars *)

Lemma starLoop_length (x0 y0 radius innerRadius step : R) (count : nat) :
  forall i, length (starLoop x0 y0 radius innerRadius step i count) = count.
Proof.
  induction count as [| count IH]; intro i; simpl; [reflexivity |].
  rewrite IH. reflexivity.
Qed.

Lemma starLoop_nth (x0 y0 radius innerRadius step : R) (count : nat) :
  forall i k, (k < count)%nat ->
    nth_error (starLoop x0 y0 radius innerRadius step i count) k
    = Some (LineTo
              (x0 + (if Nat.even (i + k) then radius else innerRadius)
                    * cos (INR (i + k) * step))
              (y0 + (if Nat.even (i + k) then radius else innerRadius)
                    * sin (INR (i + k) * step))).
Proof.
  induction count as [| count IH]; intros i k Hk; [lia |].
  destruct k as [| k]; simpl.
  - rewrite Nat.add_0_r. reflexivity.
  - rewrite IH by lia. replace (S i + k)%nat with (i + S k)%nat by lia.
    reflexivity.
Qed.

Lemma on_circle (c r a : R) (d e : R) :
  d = c + r * cos a -> forall f : R, e = f + r * sin a ->
  (d - c) * (d - c) + (e - f) * (e - f) = r * r.
Proof.
  intros Hd f He. subst d e.
  pose proof (sin2_cos2 a) as H. unfold Rsqr in H.
  replace ((c + r * cos a - c) * (c + r * cos a - c)
           + (f + r * sin a - f) * (f + r * sin a - f))
    with (r * r * (sin a * sin a + cos a * cos a)) by ring.
  rewrite H. ring.
Qed.

(** [drawStar] appends, to the path it is given, a fill that starts at
    [(x + radius, y)], then [2 * points] line segments and a closed path;
    the end of the [i]-th segment is at distance [radius] from [(x, y)] for an
    even [i] and at distance [innerRadius] for an odd [i] (squared distances
    are stated), and the first segment ends where the path started. *)
Theorem drawStar_vertices (graphics : list PathCommand) (x0 y0 radius : R)
    (points : nat) (innerRadius : R) (color : Z) :
  exists lines : list PathCommand,
    drawStar graphics x0 y0 radius points innerRadius color
    = graphics ++ BeginFill color :: MoveTo (x0 + radius) y0 :: lines
               ++ [ClosePath; EndFill]
    /\ length lines = (2 * points)%nat
    /\ (forall i : nat, (i < 2 * points)%nat ->
          exists vx vy : R,
            nth_error lines i = Some (LineTo vx vy)
            /\ (vx - x0) * (vx - x0) + (vy - y0) * (vy - y0)
               = (if Nat.even i then radius * radius
                  else innerRadius * innerRadius))
    /\ ((0 < points)%nat -> nth_error lines 0 = Some (LineTo (x0 + radius) y0)).
Proof.
  exists (starLoop x0 y0 radius innerRadius (PI / INR points) 0 (2 * points)).
  split; [reflexivity |]. split; [apply starLoop_length |]. split.
  - intros i Hi. rewrite starLoop_nth by assumption. simpl plus.
    eexists. eexists. split; [reflexivity |].
    destruct (Nat.even i); eapply on_circle; reflexivity.
  - intro Hp. rewrite starLoop_nth by lia. simpl.
    rewrite Rmult_0_l, cos_0, sin_0, Rmult_1_r, Rmult_0_r, Rplus_0_r.
    reflexivity.
Qed.

(** [generateStars], with [Math.random()] returning numbers of [[0, 1)] and a
    world of positive size, appends exactly [numStars] stars to the container
    and calls [Math.random()] three times per star; each star is placed
    inside the world and is a five-pointed star drawn around its own origin
    with an outer radius in [[3, 8)] and an inner radius half of it. *)
Theorem generateStars_stars (random : nat -> R) (k : nat)
    (container : list Star) (numStars : nat) (worldSize : WorldBounds) :
  (forall i : nat, 0 <= random i < 1) ->
  0 < width worldSize -> 0 < height worldSize ->
  exists new : list Star,
    generateStars random k container numStars worldSize
    = (container ++ new, (k + 3 * numStars)%nat)
    /\ length new = numStars
    /\ Forall (fun st =>
                 0 <= x (star_position st) < width worldSize
                 /\ 0 <= y (star_position st) < height worldSize
                 /\ exists radius : R,
                      3 <= radius < 8
                      /\ star_path st
                         = drawStar [] 0 0 radius 5 (radius / 2) 16777215)
              new.
Proof.
  intros Hrand Hw Hh. revert k container.
  induction numStars as [| n IH]; intros k container.
  - exists []. simpl. rewrite app_nil_r, Nat.add_0_r. repeat split. constructor.
  - cbn [generateStars].
    destruct (IH (k + 3)%nat
                 (container
                    ++ [mkStar (drawStar [] 0 0 (random (k + 2)%nat * 5 + 3) 5
                                  ((random (k + 2)%nat * 5 + 3) / 2) 16777215)
                               (mkPoint (random k * width worldSize)
                                        (random (k + 1)%nat * height worldSize))]))
      as (new & Hrun & Hlen & Hall).
    eexists (_ :: new). split; [| split].
    + rewrite Hrun, <- app_assoc. simpl. f_equal. lia.
    + simpl. rewrite Hlen. reflexivity.
    + constructor; [| exact Hall]. simpl.
      pose proof (Hrand k) as H1. pose proof (Hrand (k + 1)%nat) as H2.
      pose proof (Hrand (k + 2)%nat) as H3.
      repeat split; try nra.
      exists (random (k + 2)%nat * 5 + 3). split; [lra | reflexivity].
Qed.

Lemma generateStars_stars_witness :
  exists new : list Star,
    generateStars (fun _ => 0.5) 0 [] 400 WORLD_SIZE
    = ([] ++ new, (0 + 3 * 400)%nat)
    /\ length new = 400%nat
    /\ Forall (fun st =>
                 0 <= x (star_position st) < width WORLD_SIZE
                 /\ 0 <= y (star_position st) < height WORLD_SIZE
                 /\ exists radius : R,
                      3 <= radius < 8
                      /\ star_path st
                         = drawStar [] 0 0 radius 5 (radius / 2) 16777215)
              new.
Proof.
  apply (generateStars_stars (fun _ => 0.5) 0 [] 400 WORLD_SIZE).
  - intro i. lra.
  - simpl. lra.
  - simpl. lra.
Defined.
